(** * HttpFilteringEngine: a shallow embedding of the filtering engine core

    The repository contains only the control facade header
    [src/te/httpengine/HttpFilteringEngineControl.hpp]; the bodies of its
    methods and the components it composes (program options, rule store,
    certificate store, acceptors) are not part of the sources.  Each of those
    components is therefore modelled from the specification of the engine
    core and from the documentation comments of the header, and every such
    definition says so in its doc comment. *)

From Stdlib Require Import Strings.Byte Ascii.
From stdpp Require Import base list strings gmap.

(* ===================================================================== *)
(** ** Program-wide options and category enablement *)
(* ===================================================================== *)

Module ProgramWideOptions.

(** Modelled from the spec: [filtering::options::ProgramWideOptions], the
    "fixed array of atomic booleans" behind [SetOptionEnabled],
    [GetOptionEnabled], [SetCategoryEnabled] and [GetCategoryEnabled].
    Options are a flat array of bounded width; categories are an array of
    256 flags indexed by the [uint8_t] category, index 0 always false. *)
Record ProgramWideOptions := {
  m_options : list bool;
  m_categories : list bool
}.

(** Number of categories: the whole [uint8_t] range. *)
Definition NumCategories : nat := 256.

(** Modelled from the spec: a freshly constructed options object; every
    option and every category starts disabled.  [num_options] is the fixed
    width of the option array (at least 32 by the spec). *)
Definition construct (num_options : nat) : ProgramWideOptions :=
  {| m_options := replicate num_options false;
     m_categories := replicate NumCategories false |}.

(** Modelled from the spec: [SetOptionEnabled(option, enabled)]; an index
    beyond the array is silently dropped. *)
Definition SetOptionEnabled (o : ProgramWideOptions) (option : N) (enabled : bool)
  : ProgramWideOptions :=
  if decide (N.to_nat option < length (m_options o))
  then {| m_options := <[N.to_nat option := enabled]> (m_options o);
          m_categories := m_categories o |}
  else o.

(** Modelled from the spec: [GetOptionEnabled(option)]; an index beyond the
    array reads as false. *)
Definition GetOptionEnabled (o : ProgramWideOptions) (option : N) : bool :=
  if decide (N.to_nat option < length (m_options o))
  then default false (m_options o !! N.to_nat option)
  else false.

(** Modelled from the spec: [SetCategoryEnabled(category, enabled)]; the
    reserved category zero is ignored. *)
Definition SetCategoryEnabled (o : ProgramWideOptions) (category : byte) (enabled : bool)
  : ProgramWideOptions :=
  if Byte.eqb category x00 then o
  else {| m_options := m_options o;
          m_categories := <[Byte.to_nat category := enabled]> (m_categories o) |}.

(** Modelled from the spec: [GetCategoryEnabled(category)], a plain read
    of the category array (index 0 stays false because the setter never
    writes it). *)
Definition GetCategoryEnabled (o : ProgramWideOptions) (category : byte) : bool :=
  default false (m_categories o !! Byte.to_nat category).

(** The writes an embedder can issue against the options object. *)
Inductive OptionsOp :=
| SetOption (option : N) (enabled : bool)
| SetCategory (category : byte) (enabled : bool).

Definition apply_op (o : ProgramWideOptions) (op : OptionsOp) : ProgramWideOptions :=
  match op with
  | SetOption i v => SetOptionEnabled o i v
  | SetCategory c v => SetCategoryEnabled o c v
  end.

(** The options object after a sequence of writes, starting from
    construction. *)
Definition run_ops (num_options : nat) (ops : list OptionsOp) : ProgramWideOptions :=
  fold_left apply_op ops (construct num_options).

End ProgramWideOptions.

(* ===================================================================== *)
(** ** Events reported through the facade's callbacks *)
(* ===================================================================== *)

(** The messages delivered through [OnInfo], [OnWarn] and [OnError]. *)
Inductive EngineEvent :=
| OnInfo (msg : string)
| OnWarn (msg : string)
| OnError (msg : string).

(* ===================================================================== *)
(** ** Rule store: parsing, loading and URL queries *)
(* ===================================================================== *)

Module RuleStore.

(** Modelled from the spec: a parsed Adblock Plus URL rule (pattern, option
    list, allowlist flag, category tag). *)
Record Rule := {
  rule_pattern : string;
  rule_options : list string;
  rule_allow : bool;
  rule_category : byte
}.

(** Modelled from the spec: an element (CSS selector) rule bound to a set
    of domains; an empty domain list is the global bucket. *)
Record ElementRule := {
  el_domains : list string;
  el_selector : string;
  el_category : byte
}.

Inductive Filter :=
| UrlFilter (r : Rule)
| ElementFilter (e : ElementRule).

Definition filter_category (f : Filter) : byte :=
  match f with
  | UrlFilter r => rule_category r
  | ElementFilter e => el_category e
  end.

(** Outcome of parsing one line of a list. *)
Inductive ParseResult :=
| CommentLine
| Parsed (f : Filter)
| ParseFailed.

(** Modelled from the spec: the rule store, every loaded rule with its
    category (the per-category buckets of the implementation are an index
    over this content). *)
Record Store := {
  url_rules : list Rule;
  element_rules : list ElementRule
}.

Definition empty_store : Store := {| url_rules := []; element_rules := [] |}.

(** *** String helpers of the list parser *)

Definition newline : Ascii.ascii := Ascii.ascii_of_nat 10.
Definition carriage_return : Ascii.ascii := Ascii.ascii_of_nat 13.

(** Remove every [\r] of a line. *)
Fixpoint strip_cr (s : string) : string :=
  match s with
  | EmptyString => EmptyString
  | String a s' =>
      if Ascii.eqb a carriage_return then strip_cr s' else String a (strip_cr s')
  end.

(** Split a string at every occurrence of a separator character. *)
Fixpoint split_on (sep : Ascii.ascii) (s : string) : list string :=
  match s with
  | EmptyString => [EmptyString]
  | String a s' =>
      if Ascii.eqb a sep then EmptyString :: split_on sep s'
      else match split_on sep s' with
           | [] => [String a EmptyString]
           | w :: ws => String a w :: ws
           end
  end.

(** Join strings with a separator character. *)
Fixpoint join_with (sep : Ascii.ascii) (ws : list string) : string :=
  match ws with
  | [] => EmptyString
  | [w] => w
  | w :: ws' => (w ++ String sep (join_with sep ws'))%string
  end.

(** Split at the last occurrence of [sep]: the text before it and, when
    the separator occurs, the text after it. *)
Definition split_last (sep : Ascii.ascii) (s : string) : string * option string :=
  match split_on sep s with
  | [] | [_] => (s, None)
  | parts => (join_with sep (removelast parts), Some (List.last parts EmptyString))
  end.

(** Position of the first ["##"] in a string, if any. *)
Definition element_marker : string := "##".

(** The filter options the parser recognises (Adblock Plus names). *)
Definition known_options : list string :=
  ["script"; "image"; "stylesheet"; "object"; "xmlhttprequest";
   "object-subrequest"; "subdocument"; "document"; "elemhide"; "other";
   "third-party"; "collapse"; "popup"; "media"; "font"; "websocket";
   "ping"; "generichide"; "genericblock"; "match-case"]%string.

(** An option is known when, after an optional [~] negation, it is one of
    [known_options] or a [domain=] restriction. *)
Definition known_option (opt : string) : bool :=
  let o := match opt with
           | String "~"%char rest => rest
           | _ => opt
           end in
  bool_decide (o ∈ known_options) || String.prefix "domain=" o.

(** The pieces of a URL rule line: the allowlist flag (leading [@@]), the
    pattern, and the options after the last [$], split at commas. *)
Definition url_rule_parts (line : string) : bool * string * list string :=
  let '(allow, body) :=
    if String.prefix "@@" line
    then (true, String.substring 2 (String.length line - 2) line)
    else (false, line) in
  let '(pat, opts) := split_last "$"%char body in
  let options := match opts with
                 | None => []
                 | Some o => split_on ","%char o
                 end in
  (allow, pat, options).

(** Whether a character occurs in a string. *)
Fixpoint has_char (c : Ascii.ascii) (s : string) : bool :=
  match s with
  | EmptyString => false
  | String a s' => Ascii.eqb a c || has_char c s'
  end.

(** A line holding only spaces and tabs (or nothing) is blank. *)
Definition tab : Ascii.ascii := Ascii.ascii_of_nat 9.

Fixpoint is_blank (s : string) : bool :=
  match s with
  | EmptyString => true
  | String a s' => (Ascii.eqb a " "%char || Ascii.eqb a tab) && is_blank s'
  end.

(** How the parser classifies a line (after removing [\r]): blank lines
    and lines starting with [!] are comments; a line containing [##] is an
    element rule (with the marker's position); anything else is a URL
    rule. *)
Inductive LineClass :=
| LC_Comment
| LC_Element (k : nat)
| LC_Url.

Definition classify_line (line : string) : LineClass :=
  if is_blank line then LC_Comment
  else match line with
       | String "!"%char _ => LC_Comment
       | _ =>
         match String.index 0 element_marker line with
         | Some k => LC_Element k
         | None => LC_Url
         end
       end.

(** Modelled from the spec: parse one line of an Adblock Plus list into a
    filter of the given category.  Comments produce nothing; an element
    rule takes the comma-separated domains before [##] and the selector
    after it; a URL rule fails as a whole when one of its options is
    unknown. *)
Definition parse_line (category : byte) (raw : string) : ParseResult :=
  let line := strip_cr raw in
  match classify_line line with
  | LC_Comment => CommentLine
  | LC_Element k =>
      let doms := String.substring 0 k line in
      let sel := String.substring (k + 2) (String.length line - (k + 2)) line in
      Parsed (ElementFilter {| el_domains := List.filter (fun d => negb (String.eqb d ""))
                                                     (split_on ","%char doms);
                               el_selector := sel;
                               el_category := category |})
  | LC_Url =>
      let '(allow, pat, options) := url_rule_parts line in
      if forallb known_option options
      then Parsed (UrlFilter {| rule_pattern := pat; rule_options := options;
                                rule_allow := allow; rule_category := category |})
      else ParseFailed
  end.

(** Whether a raw list line is a URL rule carrying an option the parser
    does not know. *)
Definition has_unknown_option (raw : string) : bool :=
  let line := strip_cr raw in
  match classify_line line with
  | LC_Url =>
      let '(_, _, options) := url_rule_parts line in
      existsb (fun o => negb (known_option o)) options
  | _ => false
  end.

(** Parse a sequence of lines: the filters produced, and the counts of
    loaded and failed rules.  A failed line is counted and skipped; the
    lines after it are still parsed. *)
Fixpoint parse_lines (category : byte) (ls : list string) : list Filter * nat * nat :=
  match ls with
  | [] => ([], 0, 0)
  | l :: ls' =>
      let '(fs, loaded, failed) := parse_lines category ls' in
      match parse_line category l with
      | CommentLine => (fs, loaded, failed)
      | Parsed f => (f :: fs, S loaded, failed)
      | ParseFailed => (fs, loaded, S failed)
      end
  end.

Definition add_filter (s : Store) (f : Filter) : Store :=
  match f with
  | UrlFilter r => {| url_rules := url_rules s ++ [r]; element_rules := element_rules s |}
  | ElementFilter e => {| url_rules := url_rules s; element_rules := element_rules s ++ [e] |}
  end.

(** The URL rules and the element rules among parsed filters. *)
Fixpoint url_filters (fs : list Filter) : list Rule :=
  match fs with
  | [] => []
  | UrlFilter r :: fs' => r :: url_filters fs'
  | ElementFilter _ :: fs' => url_filters fs'
  end.

Fixpoint element_filters (fs : list Filter) : list ElementRule :=
  match fs with
  | [] => []
  | UrlFilter _ :: fs' => element_filters fs'
  | ElementFilter e :: fs' => e :: element_filters fs'
  end.

(** Modelled from the spec: [UnloadRulesForCategory(category)]. *)
Definition UnloadRulesForCategory (s : Store) (category : byte) : Store :=
  {| url_rules := List.filter (fun r => negb (Byte.eqb (rule_category r) category)) (url_rules s);
     element_rules := List.filter (fun e => negb (Byte.eqb (el_category e) category)) (element_rules s) |}.

(** Modelled from the spec: [LoadFilteringListFromString(listString,
    listCategory, flushExistingInCategory, rulesLoaded, rulesFailed)]:
    optionally flush the category, then parse every line and store the
    parsed rules.  Returns the new store, [rulesLoaded] and [rulesFailed]. *)
Definition LoadFilteringListFromString (s : Store) (listString : string)
    (listCategory : byte) (flushExistingInCategory : bool) : Store * nat * nat :=
  let base := if flushExistingInCategory then UnloadRulesForCategory s listCategory else s in
  let '(fs, loaded, failed) := parse_lines listCategory (split_on newline listString) in
  (fold_left add_filter fs base, loaded, failed).

(** Modelled from the spec: [LoadFilteringListFromFile]: the file system is
    the function [read_file] ([None] on an I/O failure).  An unreadable file
    leaves the store alone, loads nothing and reports through [OnError]. *)
Definition LoadFilteringListFromFile (read_file : string -> option string) (s : Store)
    (filePath : string) (listCategory : byte) (flushExistingInCategory : bool)
    : Store * nat * nat * list EngineEvent :=
  match read_file filePath with
  | None => (s, 0, 0, [OnError ("Failed to load filtering list from file " ++ filePath)%string])
  | Some contents =>
      let '(s', loaded, failed) :=
        LoadFilteringListFromString s contents listCategory flushExistingInCategory in
      (s', loaded, failed, [])
  end.

(** Verdict of a URL query. *)
Inductive Verdict :=
| Allow
| Block (category : byte)
| Pass.

(** The lowest-numbered category among a list of rules. *)
Fixpoint lowest_category (rs : list Rule) : option byte :=
  match rs with
  | [] => None
  | r :: rs' =>
      match lowest_category rs' with
      | None => Some (rule_category r)
      | Some c =>
          if Nat.leb (Byte.to_nat (rule_category r)) (Byte.to_nat c)
          then Some (rule_category r) else Some c
      end
  end.

Section Query.

(** Whether a rule's pattern matches a URL (literal, wildcard or
    host-anchored matching); the verdict logic is independent of it. *)
Variable rule_matches : Rule -> string -> bool.

(** Modelled from the spec: [query_url]: a rule is live when it matches
    and its category is enabled; a live allowlist rule gives [Allow],
    else a live block rule gives [Block] with the lowest category among
    them, else [Pass]. *)
Definition query_url (opts : ProgramWideOptions.ProgramWideOptions)
    (s : Store) (url : string) : Verdict :=
  let live r := rule_matches r url
                && ProgramWideOptions.GetCategoryEnabled opts (rule_category r) in
  if existsb (fun r => rule_allow r && live r) (url_rules s) then Allow
  else match lowest_category (List.filter (fun r => negb (rule_allow r) && live r) (url_rules s)) with
       | Some c => Block c
       | None => Pass
       end.

End Query.

End RuleStore.

(* ===================================================================== *)
(** ** Rule reloads under the readers-writer lock *)
(* ===================================================================== *)

Module RuleStoreSync.
Import RuleStore.

(** Modelled from the spec: the steps of a reload executed by the writer
    thread: take the write lock, flush the category (when asked), insert
    each parsed rule, release the lock. *)
Inductive WriterInstr :=
| W_Acquire
| W_Flush (category : byte)
| W_Add (f : Filter)
| W_Release.

Definition exec_winstr (s : Store) (i : WriterInstr) : Store :=
  match i with
  | W_Acquire | W_Release => s
  | W_Flush c => UnloadRulesForCategory s c
  | W_Add f => add_filter s f
  end.

(** Modelled from the spec: the writer program of
    [LoadFilteringListFromString] (the whole flush-and-load runs inside one
    write critical section). *)
Definition reload_body (listString : string) (listCategory : byte)
    (flushExistingInCategory : bool) : list WriterInstr :=
  let '(fs, _, _) := parse_lines listCategory (split_on newline listString) in
  (if flushExistingInCategory then [W_Flush listCategory] else []) ++ map W_Add fs.

Definition reload_program (listString : string) (listCategory : byte)
    (flushExistingInCategory : bool) : list WriterInstr :=
  [W_Acquire] ++ reload_body listString listCategory flushExistingInCategory ++ [W_Release].

(** Program counter of a reader thread running one query. *)
Inductive ReaderPc :=
| R_Idle
| R_Holding
| R_Done.

(** The shared state: the store, the lock (writer flag and reader count),
    the writer's remaining instructions, each reader's program counter and
    the snapshots observed by completed queries. *)
Record SysState := {
  sys_store : Store;
  writer_holds : bool;
  reader_count : nat;
  writer_pc : list WriterInstr;
  reader_pcs : list ReaderPc;
  observed : list (nat * Store)
}.

Inductive Thread :=
| Writer
| Reader (i : nat).

(** One atomic step of the writer; a blocked acquire leaves the state as it
    is (the thread spins). *)
Definition writer_step (st : SysState) : SysState :=
  match writer_pc st with
  | [] => st
  | W_Acquire :: rest =>
      if negb (writer_holds st) && Nat.eqb (reader_count st) 0
      then {| sys_store := sys_store st; writer_holds := true;
              reader_count := reader_count st; writer_pc := rest;
              reader_pcs := reader_pcs st; observed := observed st |}
      else st
  | W_Release :: rest =>
      {| sys_store := sys_store st; writer_holds := false;
         reader_count := reader_count st; writer_pc := rest;
         reader_pcs := reader_pcs st; observed := observed st |}
  | i :: rest =>
      {| sys_store := exec_winstr (sys_store st) i; writer_holds := writer_holds st;
         reader_count := reader_count st; writer_pc := rest;
         reader_pcs := reader_pcs st; observed := observed st |}
  end.

(** One atomic step of reader [i]: acquire the read lock (blocked while the
    writer holds it), then run the query on the store and release. *)
Definition reader_step (i : nat) (st : SysState) : SysState :=
  match reader_pcs st !! i with
  | Some R_Idle =>
      if negb (writer_holds st)
      then {| sys_store := sys_store st; writer_holds := writer_holds st;
              reader_count := S (reader_count st); writer_pc := writer_pc st;
              reader_pcs := <[i := R_Holding]> (reader_pcs st); observed := observed st |}
      else st
  | Some R_Holding =>
      {| sys_store := sys_store st; writer_holds := writer_holds st;
         reader_count := pred (reader_count st); writer_pc := writer_pc st;
         reader_pcs := <[i := R_Done]> (reader_pcs st);
         observed := observed st ++ [(i, sys_store st)] |}
  | _ => st
  end.

Definition sys_step (st : SysState) (t : Thread) : SysState :=
  match t with
  | Writer => writer_step st
  | Reader i => reader_step i st
  end.

(** The initial state: store [s0], lock free, one writer about to run
    [prog], [n] idle readers. *)
Definition sys_init (s0 : Store) (prog : list WriterInstr) (n : nat) : SysState :=
  {| sys_store := s0; writer_holds := false; reader_count := 0;
     writer_pc := prog; reader_pcs := replicate n R_Idle; observed := [] |}.

(** The state after an arbitrary interleaving [sched]. *)
Definition run_schedule (st : SysState) (sched : list Thread) : SysState :=
  fold_left sys_step sched st.

End RuleStoreSync.

(* ===================================================================== *)
(** ** Engine lifecycle: Start, Stop and the listener ports *)
(* ===================================================================== *)

Module Engine.

(** Modelled from the spec: the facade's members that [Start] acquires and
    [Stop] releases ([m_isRunning], the two acceptors with the port each
    actually bound, the io_service threads, the diversion, the live
    sessions), the ports and thread count given to the constructor, and
    the number of times the diverter was started. *)
Record EngineState := {
  m_isRunning : bool;
  m_httpListenerPort : N;
  m_httpsListenerPort : N;
  m_proxyNumThreads : nat;
  m_proxyServiceThreads : list nat;
  m_httpAcceptor : option N;
  m_httpsAcceptor : option N;
  m_diverting : bool;
  m_sessions : list nat;
  m_diversionStarts : nat
}.

(** The operating system's answer to binding a loopback listener on a
    requested port: the bound port ([0] requests an ephemeral port) or a
    failure. *)
Definition BindFunction := N -> option N.

(** The constructor [HttpFilteringEngineControl(...)]: ports and thread
    count stored, nothing acquired. *)
Definition construct (httpListenerPort httpsListenerPort : N) (proxyNumThreads : nat)
  : EngineState :=
  {| m_isRunning := false; m_httpListenerPort := httpListenerPort;
     m_httpsListenerPort := httpsListenerPort; m_proxyNumThreads := proxyNumThreads;
     m_proxyServiceThreads := []; m_httpAcceptor := None; m_httpsAcceptor := None;
     m_diverting := false; m_sessions := []; m_diversionStarts := 0 |}.

(** Everything [Start] acquires given back. *)
Definition release_all (s : EngineState) : EngineState :=
  {| m_isRunning := false; m_httpListenerPort := m_httpListenerPort s;
     m_httpsListenerPort := m_httpsListenerPort s; m_proxyNumThreads := m_proxyNumThreads s;
     m_proxyServiceThreads := []; m_httpAcceptor := None; m_httpsAcceptor := None;
     m_diverting := false; m_sessions := []; m_diversionStarts := m_diversionStarts s |}.

(** Modelled from the spec: [Start()]: no effect while running; otherwise
    bind both acceptors, start the worker threads and the diversion.  A
    bind failure is reported through [OnError] and leaves the engine
    stopped with nothing held. *)
Definition Start (bind : BindFunction) (s : EngineState) : EngineState * list EngineEvent :=
  if m_isRunning s then (s, [])
  else match bind (m_httpListenerPort s), bind (m_httpsListenerPort s) with
       | Some hp, Some sp =>
           ({| m_isRunning := true; m_httpListenerPort := m_httpListenerPort s;
               m_httpsListenerPort := m_httpsListenerPort s;
               m_proxyNumThreads := m_proxyNumThreads s;
               m_proxyServiceThreads := seq 0 (m_proxyNumThreads s);
               m_httpAcceptor := Some hp; m_httpsAcceptor := Some sp;
               m_diverting := true; m_sessions := [];
               m_diversionStarts := S (m_diversionStarts s) |}, [])
       | _, _ => (release_all s, [OnError "Failed to bind listener"%string])
       end.

(** Modelled from the spec: [Stop()]: no effect unless running; otherwise
    stop the diversion, close both acceptors, cancel the sessions and join
    the worker threads. *)
Definition Stop (s : EngineState) : EngineState :=
  if m_isRunning s then release_all s else s.

(** Modelled from the spec: a diverted connection accepted while running
    becomes a session. *)
Definition Accept (id : nat) (s : EngineState) : EngineState :=
  if m_isRunning s
  then {| m_isRunning := true; m_httpListenerPort := m_httpListenerPort s;
          m_httpsListenerPort := m_httpsListenerPort s; m_proxyNumThreads := m_proxyNumThreads s;
          m_proxyServiceThreads := m_proxyServiceThreads s; m_httpAcceptor := m_httpAcceptor s;
          m_httpsAcceptor := m_httpsAcceptor s; m_diverting := m_diverting s;
          m_sessions := id :: m_sessions s; m_diversionStarts := m_diversionStarts s |}
  else s.

(** Modelled from the spec: [IsRunning()]. *)
Definition IsRunning (s : EngineState) : bool := m_isRunning s.

(** Modelled from the spec: [GetHttpListenerPort()]: the port the plain
    acceptor is bound to while running, zero otherwise. *)
Definition GetHttpListenerPort (s : EngineState) : N :=
  if m_isRunning s then default 0%N (m_httpAcceptor s) else 0%N.

(** Modelled from the spec: [GetHttpsListenerPort()]: the port the TLS
    acceptor is bound to while running, zero otherwise. *)
Definition GetHttpsListenerPort (s : EngineState) : N :=
  if m_isRunning s then default 0%N (m_httpsAcceptor s) else 0%N.

(** Calls an embedder can make on the lifecycle. *)
Inductive EngineOp :=
| OpStart
| OpStop
| OpAccept (id : nat).

Definition apply_op (bind : BindFunction) (s : EngineState) (op : EngineOp) : EngineState :=
  match op with
  | OpStart => fst (Start bind s)
  | OpStop => Stop s
  | OpAccept id => Accept id s
  end.

(** The engine after a sequence of calls from construction. *)
Definition run_ops (bind : BindFunction) (s : EngineState) (ops : list EngineOp) : EngineState :=
  fold_left (apply_op bind) ops s.

(** Nothing acquired by [Start] is held any more. *)
Definition released (s : EngineState) : Prop :=
  m_isRunning s = false /\ m_httpAcceptor s = None /\ m_httpsAcceptor s = None
  /\ m_proxyServiceThreads s = [] /\ m_diverting s = false /\ m_sessions s = [].

End Engine.

(* ===================================================================== *)
(** ** Certificate store: root CA export and per-host leaf singleflight *)
(* ===================================================================== *)

Module CertificateStore.

(** Bytes of a leaf certificate as handed to callers. *)
Definition Leaf := list byte.

(** Modelled from the spec: the root CA pair held by the store. *)
Record RootCA := {
  ca_cert_der : list byte;
  ca_key_der : list byte
}.

(** Modelled from the spec: a per-host slot: a generation in flight with
    its waiters, or a completed leaf.  An absent key is the empty slot. *)
Inductive Slot :=
| InFlight (waiters : list nat)
| Ready (leaf : Leaf).

(** What a waiter receives: the leaf, or the generation error. *)
Inductive LeafResult :=
| LeafOk (leaf : Leaf)
| LeafErr.

(** Modelled from the spec: the store's state: the root CA (if generated),
    the slots by normalised host name, the log of generations launched and
    of leaves produced, and the results delivered to callers. *)
Record CertStore := {
  m_rootCA : option RootCA;
  m_slots : gmap string Slot;
  generations : list string;
  leaves_made : list (string * Leaf);
  delivered : list (nat * string * LeafResult)
}.

Definition empty_cert_store : CertStore :=
  {| m_rootCA := None; m_slots := ∅; generations := []; leaves_made := []; delivered := [] |}.

(** Modelled from the spec: install a root CA (generated at start or given
    by the embedder). *)
Definition install_root (ca : RootCA) (st : CertStore) : CertStore :=
  {| m_rootCA := Some ca; m_slots := m_slots st; generations := generations st;
     leaves_made := leaves_made st; delivered := delivered st |}.

Section Pem.

(** PEM encoding of the root certificate; [None] when the encoder fails. *)
Variable pem_encode : RootCA -> option (list byte).

(** Modelled from the spec: [GetRootCertificatePEM()]: the PEM bytes of
    the current root CA, empty when there is none or on error. *)
Definition GetRootCertificatePEM (st : CertStore) : list byte :=
  match m_rootCA st with
  | None => []
  | Some ca => match pem_encode ca with
               | Some pem => pem
               | None => []
               end
  end.

End Pem.

(** Modelled from the spec: caller [c] asks for the server configuration of
    host [h]: a ready leaf is returned at once; an in-flight generation
    gains a waiter; an empty slot launches the one generation. *)
Definition request (c : nat) (h : string) (st : CertStore) : CertStore :=
  match m_slots st !! h with
  | None =>
      {| m_rootCA := m_rootCA st; m_slots := <[h := InFlight [c]]> (m_slots st);
         generations := generations st ++ [h]; leaves_made := leaves_made st;
         delivered := delivered st |}
  | Some (InFlight ws) =>
      {| m_rootCA := m_rootCA st; m_slots := <[h := InFlight (ws ++ [c])]> (m_slots st);
         generations := generations st; leaves_made := leaves_made st;
         delivered := delivered st |}
  | Some (Ready l) =>
      {| m_rootCA := m_rootCA st; m_slots := m_slots st;
         generations := generations st; leaves_made := leaves_made st;
         delivered := delivered st ++ [(c, h, LeafOk l)] |}
  end.

(** Modelled from the spec: the in-flight generation for [h] finishes with
    [Some leaf] or fails with [None]: every waiter receives the result; on
    success the slot keeps the leaf, on failure it is cleared. *)
Definition complete (h : string) (r : option Leaf) (st : CertStore) : CertStore :=
  match m_slots st !! h with
  | Some (InFlight ws) =>
      match r with
      | Some l =>
          {| m_rootCA := m_rootCA st; m_slots := <[h := Ready l]> (m_slots st);
             generations := generations st; leaves_made := leaves_made st ++ [(h, l)];
             delivered := delivered st ++ map (fun w => (w, h, LeafOk l)) ws |}
      | None =>
          {| m_rootCA := m_rootCA st; m_slots := delete h (m_slots st);
             generations := generations st; leaves_made := leaves_made st;
             delivered := delivered st ++ map (fun w => (w, h, LeafErr)) ws |}
      end
  | _ => st
  end.

(** Events of the store, in the order the scheduler interleaves them. *)
Inductive CertOp :=
| Request (c : nat) (h : string)
| Complete (h : string) (r : option Leaf).

Definition apply_op (st : CertStore) (op : CertOp) : CertStore :=
  match op with
  | Request c h => request c h st
  | Complete h r => complete h r st
  end.

Definition run_ops (st : CertStore) (ops : list CertOp) : CertStore :=
  fold_left apply_op ops st.

(** [n] callers asking for [h] at the same time. *)
Definition simultaneous_requests (callers : list nat) (h : string) : list CertOp :=
  map (fun c => Request c h) callers.

End CertificateStore.

(* ===================================================================== *)
(** * Properties *)
(* ===================================================================== *)

(* --------------------------------------------------------------------- *)
(** ** Options and categories *)
(* --------------------------------------------------------------------- *)

Module OptionsFacts.
Import ProgramWideOptions.

Lemma byte_to_nat_zero (c : byte) : Byte.to_nat c = 0 -> c = x00.
Proof.
  intros H. pose proof (Byte.of_to_nat c) as Hc. rewrite H in Hc.
  simpl in Hc. congruence.
Qed.

Lemma byte_eqb_zero_false (c : byte) : c <> x00 -> Byte.eqb c x00 = false.
Proof.
  intros Hne. destruct (Byte.eqb c x00) eqn:E; [|reflexivity].
  apply Byte.byte_dec_bl in E. contradiction.
Qed.

(** The shape every reachable options object has: the option array keeps
    its width, the category array has 256 entries and entry 0 is false. *)
Definition well_shaped (num_options : nat) (o : ProgramWideOptions) : Prop :=
  length (m_options o) = num_options /\ length (m_categories o) = NumCategories
  /\ m_categories o !! 0 = Some false.

Lemma construct_well_shaped num_options : well_shaped num_options (construct num_options).
Proof.
  unfold well_shaped, construct; simpl.
  rewrite !length_replicate. auto.
Qed.

Lemma apply_op_well_shaped num_options o op :
  well_shaped num_options o -> well_shaped num_options (apply_op o op).
Proof.
  intros (Hl & Hc & H0). destruct op as [i v | c v]; simpl.
  - unfold SetOptionEnabled. case_decide; [|by repeat split].
    unfold well_shaped; simpl. rewrite length_insert. auto.
  - unfold SetCategoryEnabled. destruct (Byte.eqb c x00) eqn:E; [by repeat split|].
    unfold well_shaped; simpl. rewrite length_insert. repeat split; auto.
    rewrite list_lookup_insert_ne; [done|].
    intros Hz. apply Byte.eqb_false in E. apply E. apply byte_to_nat_zero. lia.
Qed.

Lemma run_ops_well_shaped num_options ops : well_shaped num_options (run_ops num_options ops).
Proof.
  unfold run_ops. generalize (construct_well_shaped num_options).
  generalize (construct num_options). induction ops as [|op ops IH]; intros o Ho; simpl.
  - exact Ho.
  - apply IH. by apply apply_op_well_shaped.
Qed.

End OptionsFacts.

(** C2: in every reachable options state, for a category [c <> 0],
    [SetCategoryEnabled(c, v)] followed by [GetCategoryEnabled(c)] returns
    [v]; for category 0 the getter returns false, before or after any
    [SetCategoryEnabled(0, v)] (the setter ignores zero). *)
Theorem category_set_get_roundtrip (num_options : nat) (ops : list ProgramWideOptions.OptionsOp)
    (c : byte) (v : bool) :
  let o := ProgramWideOptions.run_ops num_options ops in
  (c <> x00 ->
   ProgramWideOptions.GetCategoryEnabled (ProgramWideOptions.SetCategoryEnabled o c v) c = v)
  /\ ProgramWideOptions.GetCategoryEnabled o x00 = false
  /\ ProgramWideOptions.GetCategoryEnabled (ProgramWideOptions.SetCategoryEnabled o x00 v) x00 = false.
Proof.
  intros o. destruct (OptionsFacts.run_ops_well_shaped num_options ops) as (_ & Hlen & H0).
  unfold o.
  unfold ProgramWideOptions.GetCategoryEnabled, ProgramWideOptions.SetCategoryEnabled.
  split; [|split].
  - intros Hne. rewrite OptionsFacts.byte_eqb_zero_false by exact Hne. simpl.
    rewrite list_lookup_insert_eq; [reflexivity|].
    rewrite Hlen. unfold ProgramWideOptions.NumCategories.
    pose proof (Byte.to_nat_bounded c). lia.
  - simpl. rewrite H0. reflexivity.
  - simpl. rewrite H0. reflexivity.
Qed.

Lemma category_set_get_roundtrip_witness :
  ProgramWideOptions.GetCategoryEnabled
    (ProgramWideOptions.SetCategoryEnabled (ProgramWideOptions.run_ops 32 []) x07 true) x07 = true.
Proof.
  apply (proj1 (category_set_get_roundtrip 32 [] x07 true)). discriminate.
Defined.

(** C3: in every reachable options state with [num_options] options, for an
    index [i] within the range, [SetOptionEnabled(i, v)] followed by
    [GetOptionEnabled(i)] returns [v]; for an index outside the range the
    setter leaves the whole state unchanged and the getter returns false. *)
Theorem option_set_get_roundtrip (num_options : nat) (ops : list ProgramWideOptions.OptionsOp)
    (i : N) (v : bool) :
  let o := ProgramWideOptions.run_ops num_options ops in
  (N.to_nat i < num_options ->
   ProgramWideOptions.GetOptionEnabled (ProgramWideOptions.SetOptionEnabled o i v) i = v)
  /\ (num_options <= N.to_nat i ->
      ProgramWideOptions.SetOptionEnabled o i v = o
      /\ ProgramWideOptions.GetOptionEnabled (ProgramWideOptions.SetOptionEnabled o i v) i = false).
Proof.
  intros o. destruct (OptionsFacts.run_ops_well_shaped num_options ops) as (Hlen & _ & _).
  unfold o.
  unfold ProgramWideOptions.GetOptionEnabled, ProgramWideOptions.SetOptionEnabled.
  split.
  - intros Hi.
    destruct (decide (N.to_nat i < length (ProgramWideOptions.m_options (ProgramWideOptions.run_ops num_options ops)))) as [H1|H1];
      [|lia].
    simpl. rewrite length_insert, decide_True by lia.
    rewrite list_lookup_insert_eq by lia. reflexivity.
  - intros Hi.
    destruct (decide (N.to_nat i < length (ProgramWideOptions.m_options (ProgramWideOptions.run_ops num_options ops)))) as [H1|H1];
      [lia|].
    split; [reflexivity|]. rewrite decide_False by lia. reflexivity.
Qed.

Lemma option_set_get_roundtrip_witness :
  ProgramWideOptions.GetOptionEnabled
    (ProgramWideOptions.SetOptionEnabled (ProgramWideOptions.run_ops 32 []) 5%N true) 5%N = true
  /\ ProgramWideOptions.SetOptionEnabled (ProgramWideOptions.run_ops 32 []) 40%N true
     = ProgramWideOptions.run_ops 32 [].
Proof.
  split.
  - apply (proj1 (option_set_get_roundtrip 32 [] 5%N true)). simpl. lia.
  - apply (proj2 (option_set_get_roundtrip 32 [] 40%N true)). simpl. lia.
Defined.

(* --------------------------------------------------------------------- *)
(** ** URL verdicts *)
(* --------------------------------------------------------------------- *)

Module VerdictFacts.
Import RuleStore.

Lemma byte_to_nat_inj (a b : byte) : Byte.to_nat a = Byte.to_nat b -> a = b.
Proof.
  intros H. pose proof (Byte.of_to_nat a) as Ha. pose proof (Byte.of_to_nat b) as Hb.
  rewrite H in Ha. congruence.
Qed.

Lemma lowest_category_none (rs : list Rule) : lowest_category rs = None -> rs = [].
Proof.
  destruct rs as [|r rs]; [done|]. simpl.
  destruct (lowest_category rs); [destruct (Nat.leb _ _)|]; discriminate.
Qed.

Lemma lowest_category_some (rs : list Rule) (c : byte) :
  lowest_category rs = Some c ->
  (exists r, In r rs /\ rule_category r = c)
  /\ (forall r, In r rs -> Byte.to_nat c <= Byte.to_nat (rule_category r)).
Proof.
  revert c. induction rs as [|r rs IH]; intros c Hc; simpl in Hc; [discriminate|].
  destruct (lowest_category rs) as [c0|] eqn:E.
  - destruct (IH c0 eq_refl) as [[r0 [Hr0 Hc0]] Hmin].
    destruct (Nat.leb (Byte.to_nat (rule_category r)) (Byte.to_nat c0)) eqn:Hle;
      injection Hc as <-.
    + apply Nat.leb_le in Hle. split.
      * exists r. simpl. auto.
      * intros r' [<-|Hr']; [lia|]. specialize (Hmin r' Hr'). lia.
    + apply Nat.leb_gt in Hle. split.
      * exists r0. simpl. auto.
      * intros r' [<-|Hr']; [lia|]. auto.
  - apply lowest_category_none in E. subst rs. injection Hc as <-. split.
    + exists r. simpl. auto.
    + intros r' [<-|[]]. lia.
Qed.

End VerdictFacts.

(** C1: the verdict of a URL query.  It is [Allow] exactly when some
    allowlist rule matches the URL with its category enabled; it is
    [Block c] exactly when no such allowlist rule exists, some block rule of
    category [c] matches with its category enabled, and [c] is the lowest
    category among the matching enabled block rules; it is [Pass] exactly
    when neither an enabled allowlist rule nor an enabled block rule
    matches. *)
Theorem query_url_verdict (rule_matches : RuleStore.Rule -> string -> bool)
    (opts : ProgramWideOptions.ProgramWideOptions) (s : RuleStore.Store) (url : string) :
  let live (r : RuleStore.Rule) :=
    rule_matches r url = true
    /\ ProgramWideOptions.GetCategoryEnabled opts (RuleStore.rule_category r) = true in
  let allow_hit := exists r, In r (RuleStore.url_rules s) /\ RuleStore.rule_allow r = true /\ live r in
  let block_hit (c : byte) :=
    exists r, In r (RuleStore.url_rules s) /\ RuleStore.rule_allow r = false /\ live r
              /\ RuleStore.rule_category r = c in
  (RuleStore.query_url rule_matches opts s url = RuleStore.Allow <-> allow_hit)
  /\ (forall c, RuleStore.query_url rule_matches opts s url = RuleStore.Block c <->
        ~ allow_hit /\ block_hit c
        /\ (forall r, In r (RuleStore.url_rules s) -> RuleStore.rule_allow r = false -> live r ->
                      Byte.to_nat c <= Byte.to_nat (RuleStore.rule_category r)))
  /\ (RuleStore.query_url rule_matches opts s url = RuleStore.Pass <->
        ~ allow_hit /\ forall c, ~ block_hit c).
Proof.
  intros live allow_hit block_hit.
  assert (Hallow : existsb (fun r => RuleStore.rule_allow r
                     && (rule_matches r url
                         && ProgramWideOptions.GetCategoryEnabled opts (RuleStore.rule_category r)))
                     (RuleStore.url_rules s) = true <-> allow_hit).
  { rewrite existsb_exists. unfold allow_hit, live. split.
    - intros [r [Hr Hb]]. rewrite !andb_true_iff in Hb. exists r. tauto.
    - intros [r (Hr & Ha & Hm & He)]. exists r. rewrite Ha, Hm, He. auto. }
  set (blk := List.filter (fun r => negb (RuleStore.rule_allow r)
                 && (rule_matches r url
                     && ProgramWideOptions.GetCategoryEnabled opts (RuleStore.rule_category r)))
                (RuleStore.url_rules s)).
  assert (Hblk : forall r, In r blk <->
                 In r (RuleStore.url_rules s) /\ RuleStore.rule_allow r = false /\ live r).
  { intros r. unfold blk, live. rewrite filter_In, !andb_true_iff, negb_true_iff. tauto. }
  unfold RuleStore.query_url. fold blk.
  destruct (existsb _ (RuleStore.url_rules s)) eqn:Ea.
  - assert (allow_hit) by (apply Hallow; reflexivity).
    split; [|split].
    + tauto.
    + intros c. split; [discriminate|tauto].
    + split; [discriminate|tauto].
  - assert (Hna : ~ allow_hit) by (rewrite <- Hallow; congruence).
    destruct (RuleStore.lowest_category blk) as [c0|] eqn:El.
    + destruct (VerdictFacts.lowest_category_some blk c0 El) as [[r0 [Hr0 Hc0]] Hmin].
      split; [|split].
      * split; [discriminate|tauto].
      * intros c. split.
        -- intros Hc. injection Hc as <-. split; [exact Hna|]. split.
           ++ exists r0. apply Hblk in Hr0. tauto.
           ++ intros r Hr Ha Hl. apply Hmin, Hblk. auto.
        -- intros (_ & [r (Hr & Ha & Hl & <-)] & Hle). f_equal.
           apply VerdictFacts.byte_to_nat_inj.
           apply Hblk in Hr0. destruct Hr0 as (Hr0 & Ha0 & Hl0).
           specialize (Hle r0 Hr0 Ha0 Hl0). rewrite Hc0 in Hle.
           assert (In r blk) as Hrb by (apply Hblk; auto).
           specialize (Hmin r Hrb). lia.
      * split; [discriminate|]. intros [_ Hnb]. exfalso.
        apply (Hnb (RuleStore.rule_category r0)). apply Hblk in Hr0.
        exists r0. tauto.
    + apply VerdictFacts.lowest_category_none in El.
      assert (Hnb : forall c, ~ block_hit c).
      { intros c [r (Hr & Ha & Hl & _)]. assert (In r blk) as Hrb by (apply Hblk; auto).
        rewrite El in Hrb. destruct Hrb. }
      split; [|split].
      * split; [discriminate|tauto].
      * intros c. split; [discriminate|]. intros (_ & Hb & _). destruct (Hnb c Hb).
      * tauto.
Qed.

(* --------------------------------------------------------------------- *)
(** ** Loading lists *)
(* --------------------------------------------------------------------- *)

Module LoadFacts.
Import RuleStore.

Lemma split_on_no_sep (sep : Ascii.ascii) (w : string) :
  has_char sep w = false -> split_on sep w = [w].
Proof.
  induction w as [|a w IH]; simpl; [reflexivity|].
  intros H. apply orb_false_iff in H as [Ha Hw].
  rewrite Ha, (IH Hw). reflexivity.
Qed.

Lemma split_on_app_sep (sep : Ascii.ascii) (w rest : string) :
  has_char sep w = false ->
  split_on sep (w ++ String sep rest) = w :: split_on sep rest.
Proof.
  induction w as [|a w IH]; simpl; intros H.
  - rewrite Ascii.eqb_refl. reflexivity.
  - apply orb_false_iff in H as [Ha Hw]. rewrite Ha, (IH Hw). reflexivity.
Qed.

Lemma split_join (sep : Ascii.ascii) (ls : list string) :
  ls <> [] -> forallb (fun l => negb (has_char sep l)) ls = true ->
  split_on sep (join_with sep ls) = ls.
Proof.
  induction ls as [|w ls IH]; intros Hne Hall; [done|].
  simpl in Hall. apply andb_true_iff in Hall as [Hw Hls]. apply negb_true_iff in Hw.
  destruct ls as [|w' ls].
  - simpl. by apply split_on_no_sep.
  - change (join_with sep (w :: w' :: ls)) with (w ++ String sep (join_with sep (w' :: ls)))%string.
    rewrite split_on_app_sep by exact Hw. rewrite IH; done.
Qed.

Lemma parse_line_unknown_option (c : byte) (l : string) :
  has_unknown_option l = true -> parse_line c l = ParseFailed.
Proof.
  unfold has_unknown_option, parse_line.
  destruct (classify_line (strip_cr l)); try discriminate.
  destruct (url_rule_parts (strip_cr l)) as [[allow pat] options].
  intros H. destruct (forallb known_option options) eqn:Hall; [|reflexivity].
  exfalso. apply existsb_exists in H as [o [Ho Hno]].
  rewrite forallb_forall in Hall. rewrite (Hall o Ho) in Hno. discriminate.
Qed.

Definition combine (a b : list Filter * nat * nat) : list Filter * nat * nat :=
  let '(f1, l1, e1) := a in
  let '(f2, l2, e2) := b in
  (f1 ++ f2, l1 + l2, e1 + e2).

Lemma parse_lines_app (c : byte) (ls1 ls2 : list string) :
  parse_lines c (ls1 ++ ls2) = combine (parse_lines c ls1) (parse_lines c ls2).
Proof.
  induction ls1 as [|l ls1 IH]; simpl.
  - destruct (parse_lines c ls2) as [[f l] e]. reflexivity.
  - rewrite IH. destruct (parse_lines c ls1) as [[f1 l1] e1].
    destruct (parse_lines c ls2) as [[f2 l2] e2]. simpl.
    destruct (parse_line c l); reflexivity.
Qed.

Lemma fold_add_filters (fs : list Filter) (base : Store) :
  fold_left add_filter fs base =
  {| url_rules := url_rules base ++ url_filters fs;
     element_rules := element_rules base ++ element_filters fs |}.
Proof.
  revert base. induction fs as [|f fs IH]; intros base; simpl.
  - rewrite !app_nil_r. destruct base. reflexivity.
  - rewrite IH. destruct f; simpl; rewrite <- !app_assoc; reflexivity.
Qed.

Lemma parse_lines_loaded (c : byte) (ls : list string) :
  let '(fs, loaded, _) := parse_lines c ls in loaded = length fs.
Proof.
  induction ls as [|l ls IH]; simpl; [reflexivity|].
  destruct (parse_lines c ls) as [[fs loaded] failed].
  destruct (parse_line c l); simpl; auto.
Qed.

End LoadFacts.

(** C4: loading a list in which one line is a URL rule with an unknown
    option gives the same store and the same [rulesLoaded] as loading the
    list without that line, and one more [rulesFailed]: the line is counted
    as failed and discarded, and the lines after it are still loaded.  This
    holds for [LoadFilteringListFromString] and for
    [LoadFilteringListFromFile] reading such a file (which then reports no
    event).  When the file cannot be read, [LoadFilteringListFromFile] loads
    nothing, fails nothing, leaves the store alone and reports through
    [OnError]. *)
Theorem load_unknown_option_line_discarded (s : RuleStore.Store) (c : byte) (flush : bool)
    (pre post : list string) (bad : string) :
  (forallb (fun l => negb (RuleStore.has_char RuleStore.newline l)) (pre ++ bad :: post) = true ->
   RuleStore.has_unknown_option bad = true ->
   RuleStore.LoadFilteringListFromString s
     (RuleStore.join_with RuleStore.newline (pre ++ bad :: post)) c flush =
   (let '(s', loaded, failed) :=
      RuleStore.LoadFilteringListFromString s
        (RuleStore.join_with RuleStore.newline (pre ++ post)) c flush in
    (s', loaded, S failed)))
  /\ (forall (read_file read_file' : string -> option string) (path : string),
        forallb (fun l => negb (RuleStore.has_char RuleStore.newline l)) (pre ++ bad :: post) = true ->
        RuleStore.has_unknown_option bad = true ->
        read_file path = Some (RuleStore.join_with RuleStore.newline (pre ++ bad :: post)) ->
        read_file' path = Some (RuleStore.join_with RuleStore.newline (pre ++ post)) ->
        RuleStore.LoadFilteringListFromFile read_file s path c flush =
        (let '(s', loaded, failed, events) :=
           RuleStore.LoadFilteringListFromFile read_file' s path c flush in
         (s', loaded, S failed, events))
        /\ snd (RuleStore.LoadFilteringListFromFile read_file s path c flush) = [])
  /\ (forall (read_file : string -> option string) (path : string),
        read_file path = None ->
        exists msg, RuleStore.LoadFilteringListFromFile read_file s path c flush
                    = (s, 0, 0, [OnError msg])).
Proof.
  assert (Hstr :
    forallb (fun l => negb (RuleStore.has_char RuleStore.newline l)) (pre ++ bad :: post) = true ->
    RuleStore.has_unknown_option bad = true ->
    RuleStore.LoadFilteringListFromString s
      (RuleStore.join_with RuleStore.newline (pre ++ bad :: post)) c flush =
    (let '(s', loaded, failed) :=
       RuleStore.LoadFilteringListFromString s
         (RuleStore.join_with RuleStore.newline (pre ++ post)) c flush in
     (s', loaded, S failed))).
  { intros Hall Hbad. unfold RuleStore.LoadFilteringListFromString.
    rewrite LoadFacts.split_join; [|by destruct pre|exact Hall].
    rewrite forallb_app in Hall. simpl in Hall.
    apply andb_true_iff in Hall as [Hpre Hrest]. apply andb_true_iff in Hrest as [_ Hpost].
    rewrite LoadFacts.parse_lines_app. simpl (RuleStore.parse_lines c (bad :: post)).
    rewrite (LoadFacts.parse_line_unknown_option c bad Hbad).
    destruct pre as [|l pre]; [destruct post as [|l' post]|].
    + simpl. destruct (if flush then _ else _); reflexivity.
    + rewrite app_nil_l, LoadFacts.split_join;
        [|discriminate|exact Hpost].
      simpl (RuleStore.parse_lines c []).
      destruct (RuleStore.parse_lines c (l' :: post)) as [[f2 l2] e2]. reflexivity.
    + rewrite LoadFacts.split_join;
        [|discriminate|rewrite forallb_app, Hpre, Hpost; reflexivity].
      rewrite LoadFacts.parse_lines_app.
      destruct (RuleStore.parse_lines c (l :: pre)) as [[f1 l1] e1].
      destruct (RuleStore.parse_lines c post) as [[f2 l2] e2]. simpl.
      rewrite Nat.add_succ_r. reflexivity. }
  split; [exact Hstr|split].
  - intros read_file read_file' path Hall Hbad H1 H2.
    unfold RuleStore.LoadFilteringListFromFile. rewrite H1, H2, (Hstr Hall Hbad).
    destruct (RuleStore.LoadFilteringListFromString s
                (RuleStore.join_with RuleStore.newline (pre ++ post)) c flush) as [[s' l] e].
    split; reflexivity.
  - intros read_file path Hnone. unfold RuleStore.LoadFilteringListFromFile.
    rewrite Hnone. eexists. reflexivity.
Qed.

Lemma load_unknown_option_line_discarded_witness :
  RuleStore.LoadFilteringListFromString RuleStore.empty_store
    (RuleStore.join_with RuleStore.newline
       ["||ads.example.com^"; "||x.example^$bogus"; "@@||example.com/allowed^$script"]%string)
    x01 true
  = (let '(s', loaded, failed) :=
       RuleStore.LoadFilteringListFromString RuleStore.empty_store
         (RuleStore.join_with RuleStore.newline
            ["||ads.example.com^"; "@@||example.com/allowed^$script"]%string) x01 true in
     (s', loaded, S failed))
  /\ RuleStore.LoadFilteringListFromFile
       (fun _ => Some (RuleStore.join_with RuleStore.newline
                   ["||ads.example.com^"; "||x.example^$bogus"; "@@||example.com/allowed^$script"]%string))
       RuleStore.empty_store "list.txt" x01 true
     = (let '(s', loaded, failed, events) :=
          RuleStore.LoadFilteringListFromFile
            (fun _ => Some (RuleStore.join_with RuleStore.newline
                        ["||ads.example.com^"; "@@||example.com/allowed^$script"]%string))
            RuleStore.empty_store "list.txt" x01 true in
        (s', loaded, S failed, events)).
Proof.
  split.
  - apply (proj1 (load_unknown_option_line_discarded RuleStore.empty_store x01 true
                    ["||ads.example.com^"]%string ["@@||example.com/allowed^$script"]%string
                    "||x.example^$bogus"%string)); vm_compute; reflexivity.
  - apply (proj1 (proj1 (proj2 (load_unknown_option_line_discarded RuleStore.empty_store x01 true
                    ["||ads.example.com^"]%string ["@@||example.com/allowed^$script"]%string
                    "||x.example^$bogus"%string))
                    (fun _ => Some (RuleStore.join_with RuleStore.newline
                       ["||ads.example.com^"; "||x.example^$bogus"; "@@||example.com/allowed^$script"]%string))
                    (fun _ => Some (RuleStore.join_with RuleStore.newline
                       ["||ads.example.com^"; "@@||example.com/allowed^$script"]%string))
                    "list.txt"%string
                    ltac:(vm_compute; reflexivity) ltac:(vm_compute; reflexivity)
                    eq_refl eq_refl)).
Defined.

(** C10: with [flushExistingInCategory = false], loading the same list twice
    into the same category reports the same [rulesLoaded] (the number of
    parsed rules) and [rulesFailed] both times, and the store ends up with
    every parsed rule of the list twice after what it held before: no
    duplicate detection.  The same holds of [LoadFilteringListFromFile]
    reading the same file twice, which reports no event either time. *)
Theorem load_twice_keeps_duplicates (s : RuleStore.Store) (listString : string) (c : byte) :
  let '(fs, _, _) := RuleStore.parse_lines c (RuleStore.split_on RuleStore.newline listString) in
  (let '(s1, l1, f1) := RuleStore.LoadFilteringListFromString s listString c false in
   let '(s2, l2, f2) := RuleStore.LoadFilteringListFromString s1 listString c false in
   l1 = length fs /\ l2 = l1 /\ f2 = f1
   /\ RuleStore.url_rules s2
      = RuleStore.url_rules s ++ RuleStore.url_filters fs ++ RuleStore.url_filters fs
   /\ RuleStore.element_rules s2
      = RuleStore.element_rules s ++ RuleStore.element_filters fs ++ RuleStore.element_filters fs)
  /\ (forall (read_file : string -> option string) (path : string),
        read_file path = Some listString ->
        let '(s1, l1, f1, e1) := RuleStore.LoadFilteringListFromFile read_file s path c false in
        let '(s2, l2, f2, e2) := RuleStore.LoadFilteringListFromFile read_file s1 path c false in
        l1 = length fs /\ l2 = l1 /\ f2 = f1 /\ e1 = [] /\ e2 = []
        /\ RuleStore.url_rules s2
           = RuleStore.url_rules s ++ RuleStore.url_filters fs ++ RuleStore.url_filters fs
        /\ RuleStore.element_rules s2
           = RuleStore.element_rules s ++ RuleStore.element_filters fs ++ RuleStore.element_filters fs).
Proof.
  unfold RuleStore.LoadFilteringListFromFile, RuleStore.LoadFilteringListFromString.
  pose proof (LoadFacts.parse_lines_loaded c (RuleStore.split_on RuleStore.newline listString))
    as Hl.
  destruct (RuleStore.parse_lines c (RuleStore.split_on RuleStore.newline listString))
    as [[fs loaded] failed] eqn:Ep.
  split.
  - rewrite !LoadFacts.fold_add_filters. simpl.
    rewrite <- !app_assoc. auto.
  - intros read_file path Hr. rewrite Hr, Ep.
    rewrite !LoadFacts.fold_add_filters. simpl.
    rewrite <- !app_assoc. auto 10.
Qed.

Lemma load_twice_keeps_duplicates_witness :
  let rf := fun _ : string => Some "||ads.example.com^"%string in
  let '(s1, l1, f1, e1) :=
    RuleStore.LoadFilteringListFromFile rf RuleStore.empty_store "list.txt" x01 false in
  let '(s2, l2, f2, e2) := RuleStore.LoadFilteringListFromFile rf s1 "list.txt" x01 false in
  l2 = l1 /\ e2 = [] /\ length (RuleStore.url_rules s2) = 2.
Proof.
  intros rf.
  pose proof (proj2 (load_twice_keeps_duplicates RuleStore.empty_store "||ads.example.com^"%string x01)
                rf "list.txt"%string eq_refl) as H.
  vm_compute in H. vm_compute.
  destruct H as (_ & H2 & _ & _ & H5 & H6 & _).
  split; [exact H2|split; [exact H5|reflexivity]].
Defined.

(* --------------------------------------------------------------------- *)
(** ** Engine lifecycle *)
(* --------------------------------------------------------------------- *)

Module EngineFacts.
Import Engine.

(** What holds of every engine reachable from construction: a stopped
    engine holds nothing, and a running engine holds both acceptors, bound
    where the operating system answered for the configured ports. *)
Definition engine_inv (bind : BindFunction) (s : EngineState) : Prop :=
  (m_isRunning s = false -> released s)
  /\ (m_isRunning s = true ->
      exists hp sp, bind (m_httpListenerPort s) = Some hp
                    /\ bind (m_httpsListenerPort s) = Some sp
                    /\ m_httpAcceptor s = Some hp /\ m_httpsAcceptor s = Some sp).

Lemma release_all_released (s : EngineState) : released (release_all s).
Proof. unfold released, release_all; simpl. repeat split. Qed.

Lemma construct_inv bind hp sp n : engine_inv bind (construct hp sp n).
Proof.
  split; [intros _; unfold released; simpl; repeat split|discriminate].
Qed.

(** Close a goal whose premise says a stopped engine is running (or the
    reverse). *)
Ltac running_absurd := let H := fresh in intros H; simpl in H; discriminate H.

Lemma apply_op_inv bind s op : engine_inv bind s -> engine_inv bind (apply_op bind s op).
Proof.
  intros [Hstop Hrun]. unfold engine_inv. destruct op as [| |id]; simpl.
  - unfold Start. destruct (m_isRunning s) eqn:Hr;
      [simpl; split; intros; [apply Hstop|apply Hrun]; congruence|].
    destruct (bind (m_httpListenerPort s)) as [hp|] eqn:Eh;
      [destruct (bind (m_httpsListenerPort s)) as [sp|] eqn:Es|]; simpl.
    + split; [running_absurd|]. intros _. exists hp, sp. auto.
    + split; [intros _; apply release_all_released|running_absurd].
    + split; [intros _; apply release_all_released|running_absurd].
  - unfold Stop. destruct (m_isRunning s) eqn:Hr.
    + split; [intros _; apply release_all_released|running_absurd].
    + split; auto. congruence.
  - unfold Accept. destruct (m_isRunning s) eqn:Hr.
    + split; [running_absurd|]. intros _. simpl. auto.
    + split; auto. congruence.
Qed.

(** The configured ports never change. *)
Lemma apply_op_config bind s op :
  m_httpListenerPort (apply_op bind s op) = m_httpListenerPort s
  /\ m_httpsListenerPort (apply_op bind s op) = m_httpsListenerPort s.
Proof.
  destruct op; simpl; unfold Start, Stop, Accept, release_all;
    destruct (m_isRunning s); simpl; auto.
  destruct (bind (m_httpListenerPort s)); [destruct (bind (m_httpsListenerPort s))|];
    simpl; auto.
Qed.

Lemma run_ops_config bind s ops :
  m_httpListenerPort (run_ops bind s ops) = m_httpListenerPort s
  /\ m_httpsListenerPort (run_ops bind s ops) = m_httpsListenerPort s.
Proof.
  revert s. induction ops as [|op ops IH]; intros s; simpl; [auto|].
  destruct (IH (apply_op bind s op)) as [H1 H2].
  destruct (apply_op_config bind s op) as [H3 H4]. unfold run_ops in *. split; congruence.
Qed.

Lemma run_ops_engine_inv bind s ops : engine_inv bind s -> engine_inv bind (run_ops bind s ops).
Proof.
  revert s. induction ops as [|op ops IH]; intros s Hs; simpl; [exact Hs|].
  apply IH. by apply apply_op_inv.
Qed.

End EngineFacts.

(** C5: on every engine reachable from construction, [Start] while running
    changes nothing and reports nothing; [Stop] while not running changes
    nothing; [Stop; Stop] is the same as [Stop]; after [Stop] the engine
    holds no acceptor, no worker thread, no session and no diversion; and
    [Start; Start] starts the diversion at most once. *)
Theorem start_stop_idempotent (bind : Engine.BindFunction) (httpPort httpsPort : N)
    (numThreads : nat) (ops : list Engine.EngineOp) :
  let s := Engine.run_ops bind (Engine.construct httpPort httpsPort numThreads) ops in
  (Engine.IsRunning s = true -> Engine.Start bind s = (s, []))
  /\ (Engine.IsRunning s = false -> Engine.Stop s = s)
  /\ Engine.Stop (Engine.Stop s) = Engine.Stop s
  /\ Engine.released (Engine.Stop s)
  /\ Engine.m_diversionStarts (fst (Engine.Start bind (fst (Engine.Start bind s))))
     <= S (Engine.m_diversionStarts s).
Proof.
  intros s.
  assert (Hinv : EngineFacts.engine_inv bind s)
    by apply EngineFacts.run_ops_engine_inv, EngineFacts.construct_inv.
  destruct Hinv as [Hstop _].
  unfold Engine.IsRunning, Engine.Stop, Engine.Start.
  split; [|split; [|split; [|split]]].
  - intros Hr. rewrite Hr. reflexivity.
  - intros Hr. rewrite Hr. reflexivity.
  - destruct (Engine.m_isRunning s) eqn:Hr; [|rewrite Hr; reflexivity].
    reflexivity.
  - destruct (Engine.m_isRunning s) eqn:Hr; [apply EngineFacts.release_all_released|].
    apply Hstop. reflexivity.
  - destruct (Engine.m_isRunning s) eqn:Hr; simpl; [rewrite Hr; simpl; lia|].
    destruct (bind (Engine.m_httpListenerPort s)) as [hp|] eqn:E1;
      [destruct (bind (Engine.m_httpsListenerPort s)) as [sp|] eqn:E2|]; simpl; [lia| |];
      unfold Engine.release_all; simpl; rewrite ?E1, ?E2; simpl; lia.
Qed.

Lemma start_stop_idempotent_witness :
  let bind := fun p : N => Some (if N.eqb p 0 then 49152%N else p) in
  let s := Engine.run_ops bind (Engine.construct 0 0 4) [Engine.OpStart] in
  Engine.Start bind s = (s, []) /\ Engine.Stop (Engine.Stop s) = Engine.Stop s.
Proof.
  intros bind s.
  destruct (start_stop_idempotent bind 0 0 4 [Engine.OpStart]) as (H1 & _ & H3 & _).
  split; [apply H1; vm_compute; reflexivity|exact H3].
Defined.

(** C9: on every engine reachable from construction, when not running both
    [GetHttpListenerPort] and [GetHttpsListenerPort] return zero; when
    running they return the ports the two acceptors actually bound, which
    are the operating system's answers for the configured ports (so a
    configured zero yields the port the system assigned). *)
Theorem listener_ports (bind : Engine.BindFunction) (httpPort httpsPort : N)
    (numThreads : nat) (ops : list Engine.EngineOp) :
  let s := Engine.run_ops bind (Engine.construct httpPort httpsPort numThreads) ops in
  (Engine.IsRunning s = false ->
   Engine.GetHttpListenerPort s = 0%N /\ Engine.GetHttpsListenerPort s = 0%N)
  /\ (Engine.IsRunning s = true ->
      Engine.m_httpAcceptor s = Some (Engine.GetHttpListenerPort s)
      /\ Engine.m_httpsAcceptor s = Some (Engine.GetHttpsListenerPort s)
      /\ bind httpPort = Some (Engine.GetHttpListenerPort s)
      /\ bind httpsPort = Some (Engine.GetHttpsListenerPort s)).
Proof.
  intros s.
  assert (Hinv : EngineFacts.engine_inv bind s)
    by apply EngineFacts.run_ops_engine_inv, EngineFacts.construct_inv.
  destruct Hinv as [Hstop Hrun].
  destruct (EngineFacts.run_ops_config bind (Engine.construct httpPort httpsPort numThreads) ops)
    as [Hc1 Hc2].
  fold s in Hc1, Hc2. simpl in Hc1, Hc2.
  unfold Engine.IsRunning, Engine.GetHttpListenerPort, Engine.GetHttpsListenerPort.
  split.
  - intros Hr. rewrite Hr. auto.
  - intros Hr. rewrite Hr. destruct (Hrun Hr) as (hp & sp & Hb1 & Hb2 & Ha1 & Ha2).
    rewrite Ha1, Ha2. simpl. rewrite <- Hc1, <- Hc2. auto.
Qed.

Lemma listener_ports_witness :
  let bind := fun p : N => Some (if N.eqb p 0 then 49152%N else p) in
  let s := Engine.run_ops bind (Engine.construct 0 0 4) [Engine.OpStart] in
  bind 0%N = Some (Engine.GetHttpListenerPort s) /\ Engine.GetHttpListenerPort s = 49152%N.
Proof.
  intros bind s. split.
  - apply (proj2 (listener_ports bind 0 0 4 [Engine.OpStart])). vm_compute. reflexivity.
  - vm_compute. reflexivity.
Defined.

(* --------------------------------------------------------------------- *)
(** ** Certificate store *)
(* --------------------------------------------------------------------- *)

Module CertFacts.
Import CertificateStore.

Lemma request_keeps_root c h st : m_rootCA (request c h st) = m_rootCA st.
Proof. unfold request. destruct (m_slots st !! h) as [[]|]; reflexivity. Qed.

Lemma complete_keeps_root h r st : m_rootCA (complete h r st) = m_rootCA st.
Proof. unfold complete. destruct (m_slots st !! h) as [[]|]; [destruct r| |]; reflexivity. Qed.

Lemma run_ops_keeps_root st ops : m_rootCA (run_ops st ops) = m_rootCA st.
Proof.
  unfold run_ops. revert st. induction ops as [|op ops IH]; intros st; simpl; [reflexivity|].
  rewrite IH. destruct op; simpl.
  - apply request_keeps_root.
  - apply complete_keeps_root.
Qed.

(** Leaves produced for host [h]. *)
Definition leaves_for (h : string) (st : CertStore) : list (string * Leaf) :=
  List.filter (fun p => String.eqb (fst p) h) (leaves_made st).

(** The singleflight invariant: a host whose slot holds a leaf had exactly
    that leaf produced, and every leaf delivered for it is that one; any
    other host has had no leaf produced or delivered. *)
Definition slot_inv (st : CertStore) : Prop :=
  forall h,
    (forall l, m_slots st !! h = Some (Ready l) ->
               leaves_for h st = [(h, l)]
               /\ forall c l', In (c, h, LeafOk l') (delivered st) -> l' = l)
    /\ ((forall l, m_slots st !! h <> Some (Ready l)) ->
        leaves_for h st = [] /\ forall c l', ~ In (c, h, LeafOk l') (delivered st)).

Lemma empty_slot_inv : slot_inv empty_cert_store.
Proof.
  intros h. split.
  - intros l Hl. simpl in Hl. rewrite lookup_empty in Hl. discriminate.
  - intros _. split; [reflexivity|]. intros c l' [].
Qed.

Lemma in_map_deliveries (ws : list nat) (h h' : string) (r r' : LeafResult) (c : nat) :
  In (c, h', r') (map (fun w => (w, h, r)) ws) -> h' = h /\ r' = r.
Proof. rewrite in_map_iff. intros [w [Hw _]]. injection Hw as -> ->. auto. Qed.

Lemma request_inv c h0 st : slot_inv st -> slot_inv (request c h0 st).
Proof.
  intros Hinv h. destruct (Hinv h) as [Hready Hnot].
  unfold request, leaves_for in *.
  destruct (m_slots st !! h0) as [[ws|l0]|] eqn:E0; simpl.
  - destruct (String.eqb_spec h0 h) as [<-|Hne].
    + rewrite lookup_insert_eq. split; [discriminate|].
      intros _. apply Hnot. rewrite E0. discriminate.
    + rewrite lookup_insert_ne by exact Hne. auto.
  - split.
    + intros l Hl. destruct (Hready l Hl) as [Hlv Hdl]. split; [exact Hlv|].
      intros c' l' Hin. apply in_app_or in Hin as [Hin|[Hin|[]]]; [eauto|].
      injection Hin as _ -> ->. rewrite E0 in Hl. congruence.
    + intros Hn. destruct (Hnot Hn) as [Hlv Hdl]. split; [exact Hlv|].
      intros c' l' Hin. apply in_app_or in Hin as [Hin|[Hin|[]]]; [eapply Hdl; eauto|].
      injection Hin as _ -> ->. apply (Hn l'). exact E0.
  - destruct (String.eqb_spec h0 h) as [<-|Hne].
    + rewrite lookup_insert_eq. split; [discriminate|].
      intros _. apply Hnot. rewrite E0. discriminate.
    + rewrite lookup_insert_ne by exact Hne. auto.
Qed.

Lemma complete_inv h0 r st : slot_inv st -> slot_inv (complete h0 r st).
Proof.
  intros Hinv h. destruct (Hinv h) as [Hready Hnot].
  unfold complete, leaves_for in *.
  destruct (m_slots st !! h0) as [[ws|l0]|] eqn:E0; [|auto|auto].
  destruct r as [l|]; simpl.
  - rewrite List.filter_app. simpl.
    destruct (String.eqb_spec h0 h) as [<-|Hne].
    + assert (Hn : forall l', m_slots st !! h0 <> Some (Ready l')) by (rewrite E0; discriminate).
      destruct (Hnot Hn) as [Hlv Hdl].
      rewrite lookup_insert_eq, Hlv. split.
      * intros l' Hl'. injection Hl' as <-. split; [reflexivity|].
        intros c l' Hin. apply in_app_or in Hin as [Hin|Hin]; [destruct (Hdl c l' Hin)|].
        apply in_map_deliveries in Hin as [_ Hr]. congruence.
      * intros Hn'. destruct (Hn' l). reflexivity.
    + rewrite lookup_insert_ne by exact Hne. rewrite app_nil_r. split.
      * intros l' Hl'. destruct (Hready l' Hl') as [Hlv Hdl]. split; [exact Hlv|].
        intros c l'' Hin. apply in_app_or in Hin as [Hin|Hin]; [eauto|].
        apply in_map_deliveries in Hin as [Hh _]. congruence.
      * intros Hn'. destruct (Hnot Hn') as [Hlv Hdl]. split; [exact Hlv|].
        intros c l'' Hin. apply in_app_or in Hin as [Hin|Hin]; [eapply Hdl; eauto|].
        apply in_map_deliveries in Hin as [Hh _]. congruence.
  - destruct (String.eqb_spec h0 h) as [<-|Hne].
    + assert (Hn : forall l', m_slots st !! h0 <> Some (Ready l')) by (rewrite E0; discriminate).
      destruct (Hnot Hn) as [Hlv Hdl].
      rewrite lookup_delete_eq. split; [discriminate|]. intros _. split; [exact Hlv|].
      intros c l' Hin. apply in_app_or in Hin as [Hin|Hin]; [eapply Hdl; eauto|].
      apply in_map_deliveries in Hin as [_ Hr]. discriminate.
    + rewrite lookup_delete_ne by exact Hne. split.
      * intros l' Hl'. destruct (Hready l' Hl') as [Hlv Hdl]. split; [exact Hlv|].
        intros c l'' Hin. apply in_app_or in Hin as [Hin|Hin]; [eauto|].
        apply in_map_deliveries in Hin as [Hh _]. congruence.
      * intros Hn'. destruct (Hnot Hn') as [Hlv Hdl]. split; [exact Hlv|].
        intros c l'' Hin. apply in_app_or in Hin as [Hin|Hin]; [eapply Hdl; eauto|].
        apply in_map_deliveries in Hin as [Hh _]. congruence.
Qed.

Lemma run_ops_slot_inv st ops : slot_inv st -> slot_inv (run_ops st ops).
Proof.
  unfold run_ops. revert st. induction ops as [|op ops IH]; intros st Hst; simpl; [exact Hst|].
  apply IH. destruct op; simpl; [apply request_inv|apply complete_inv]; exact Hst.
Qed.

(** Requests for a host whose generation is in flight only join its
    waiters. *)
Lemma requests_join_inflight (st : CertStore) (h : string) (ws cs : list nat) :
  m_slots st !! h = Some (InFlight ws) ->
  let st' := run_ops st (simultaneous_requests cs h) in
  m_slots st' !! h = Some (InFlight (ws ++ cs))
  /\ generations st' = generations st /\ delivered st' = delivered st
  /\ leaves_made st' = leaves_made st.
Proof.
  revert st ws. induction cs as [|c cs IH]; intros st ws Hws.
  - simpl. rewrite app_nil_r. auto.
  - cbv zeta.
    change (run_ops st (simultaneous_requests (c :: cs) h))
      with (run_ops (request c h st) (simultaneous_requests cs h)).
    assert (Hr : m_slots (request c h st) !! h = Some (InFlight (ws ++ [c]))).
    { unfold request. rewrite Hws. simpl. apply lookup_insert_eq. }
    destruct (IH (request c h st) (ws ++ [c]) Hr) as (H1 & H2 & H3 & H4).
    rewrite <- app_assoc in H1. cbn [app] in H1.
    rewrite H1, H2, H3, H4. unfold request. rewrite Hws. simpl. auto.
Qed.

End CertFacts.

(** C7: singleflight leaf generation.  In every store reached from the empty
    store by any interleaving of requests and generation completions, at most
    one leaf is produced per host and every caller that receives a leaf for
    a host receives the same leaf.  From an empty slot, simultaneous requests
    of callers [c0 :: cs] launch exactly one generation and all wait on it;
    its success hands the one leaf to each of them.  A failed generation
    hands the error to every waiter and clears the slot, so a later request
    launches a new generation. *)
Theorem leaf_singleflight (ops : list CertificateStore.CertOp) :
  let st := CertificateStore.run_ops CertificateStore.empty_cert_store ops in
  (forall h, length (CertFacts.leaves_for h st) <= 1)
  /\ (forall c1 c2 h l1 l2,
        In (c1, h, CertificateStore.LeafOk l1) (CertificateStore.delivered st) ->
        In (c2, h, CertificateStore.LeafOk l2) (CertificateStore.delivered st) -> l1 = l2)
  /\ (forall h c0 cs, CertificateStore.m_slots st !! h = None ->
        let st1 := CertificateStore.run_ops st
                     (CertificateStore.simultaneous_requests (c0 :: cs) h) in
        CertificateStore.generations st1 = CertificateStore.generations st ++ [h]
        /\ CertificateStore.m_slots st1 !! h = Some (CertificateStore.InFlight (c0 :: cs))
        /\ forall l,
             CertificateStore.delivered (CertificateStore.complete h (Some l) st1)
             = CertificateStore.delivered st
               ++ map (fun c => (c, h, CertificateStore.LeafOk l)) (c0 :: cs)
             /\ CertificateStore.leaves_made (CertificateStore.complete h (Some l) st1)
                = CertificateStore.leaves_made st ++ [(h, l)])
  /\ (forall h ws, CertificateStore.m_slots st !! h = Some (CertificateStore.InFlight ws) ->
        let st1 := CertificateStore.complete h None st in
        CertificateStore.m_slots st1 !! h = None
        /\ CertificateStore.delivered st1
           = CertificateStore.delivered st ++ map (fun w => (w, h, CertificateStore.LeafErr)) ws
        /\ forall c, CertificateStore.generations (CertificateStore.request c h st1)
                     = CertificateStore.generations st1 ++ [h]).
Proof.
  intros st.
  assert (Hinv : CertFacts.slot_inv st)
    by apply CertFacts.run_ops_slot_inv, CertFacts.empty_slot_inv.
  split; [|split; [|split]].
  - intros h. destruct (Hinv h) as [Hready Hnot].
    destruct (CertificateStore.m_slots st !! h) as [[ws|l]|] eqn:E.
    + rewrite (proj1 (Hnot ltac:(intros l; discriminate))). simpl. lia.
    + rewrite (proj1 (Hready l eq_refl)). simpl. lia.
    + rewrite (proj1 (Hnot ltac:(intros l; discriminate))). simpl. lia.
  - intros c1 c2 h l1 l2 H1 H2. destruct (Hinv h) as [Hready Hnot].
    destruct (CertificateStore.m_slots st !! h) as [[ws|l]|] eqn:E.
    + destruct (proj2 (Hnot ltac:(intros l; discriminate)) c1 l1 H1).
    + destruct (Hready l eq_refl) as [_ Hd].
      rewrite (Hd c1 l1 H1), (Hd c2 l2 H2). reflexivity.
    + destruct (proj2 (Hnot ltac:(intros l; discriminate)) c1 l1 H1).
  - intros h c0 cs Hnone st1.
    assert (Hfirst : CertificateStore.m_slots (CertificateStore.request c0 h st) !! h
                     = Some (CertificateStore.InFlight [c0])).
    { unfold CertificateStore.request. rewrite Hnone. simpl. apply lookup_insert_eq. }
    destruct (CertFacts.requests_join_inflight _ h [c0] cs Hfirst) as (H1 & H2 & H3 & H4).
    change st1 with (CertificateStore.run_ops (CertificateStore.request c0 h st)
                       (CertificateStore.simultaneous_requests cs h)).
    assert (Hg : CertificateStore.generations (CertificateStore.request c0 h st)
                 = CertificateStore.generations st ++ [h]
                 /\ CertificateStore.delivered (CertificateStore.request c0 h st)
                    = CertificateStore.delivered st
                 /\ CertificateStore.leaves_made (CertificateStore.request c0 h st)
                    = CertificateStore.leaves_made st).
    { unfold CertificateStore.request. rewrite Hnone. simpl. auto. }
    destruct Hg as (Hg1 & Hg2 & Hg3).
    split; [|split].
    + rewrite H2, Hg1. reflexivity.
    + exact H1.
    + intros l. unfold CertificateStore.complete. rewrite H1. simpl.
      rewrite H3, H4, Hg2, Hg3. auto.
  - intros h ws Hws st1. unfold st1, CertificateStore.complete. rewrite Hws. simpl.
    split; [apply lookup_delete_eq|split; [reflexivity|]].
    intros c. unfold CertificateStore.request. simpl. rewrite lookup_delete_eq. reflexivity.
Qed.

Lemma leaf_singleflight_witness :
  let st := CertificateStore.run_ops CertificateStore.empty_cert_store [] in
  CertificateStore.generations
    (CertificateStore.run_ops st
       (CertificateStore.simultaneous_requests [1; 2; 3] "secure.example.com"%string))
  = CertificateStore.generations st ++ ["secure.example.com"%string].
Proof.
  intros st.
  destruct (leaf_singleflight []) as (_ & _ & H & _).
  apply (H "secure.example.com"%string 1 [2; 3]). vm_compute. reflexivity.
Defined.

(** C8: [GetRootCertificatePEM] returns the PEM bytes of the root CA
    currently installed (the last one installed); it returns an empty vector
    when no root CA has been installed, in particular in a store where none
    was ever generated whatever leaf traffic it served, and when the PEM
    encoding fails. *)
Theorem root_certificate_pem (pem_encode : CertificateStore.RootCA -> option (list byte))
    (st : CertificateStore.CertStore) :
  (CertificateStore.m_rootCA st = None -> CertificateStore.GetRootCertificatePEM pem_encode st = [])
  /\ (forall ops, CertificateStore.GetRootCertificatePEM pem_encode
                    (CertificateStore.run_ops CertificateStore.empty_cert_store ops) = [])
  /\ (forall ca pem, pem_encode ca = Some pem ->
        CertificateStore.GetRootCertificatePEM pem_encode (CertificateStore.install_root ca st) = pem)
  /\ (forall ca, pem_encode ca = None ->
        CertificateStore.GetRootCertificatePEM pem_encode (CertificateStore.install_root ca st) = []).
Proof.
  unfold CertificateStore.GetRootCertificatePEM.
  split; [|split; [|split]].
  - intros H. rewrite H. reflexivity.
  - intros ops. rewrite CertFacts.run_ops_keeps_root. reflexivity.
  - intros ca pem H. simpl. rewrite H. reflexivity.
  - intros ca H. simpl. rewrite H. reflexivity.
Qed.

Lemma root_certificate_pem_witness :
  let ca := {| CertificateStore.ca_cert_der := [x30; x82]; CertificateStore.ca_key_der := [x01] |} in
  CertificateStore.GetRootCertificatePEM (fun r => Some (CertificateStore.ca_cert_der r))
    (CertificateStore.install_root ca CertificateStore.empty_cert_store) = [x30; x82]
  /\ CertificateStore.GetRootCertificatePEM (fun r => Some (CertificateStore.ca_cert_der r))
       CertificateStore.empty_cert_store = [].
Proof.
  intros ca.
  destruct (root_certificate_pem (fun r => Some (CertificateStore.ca_cert_der r))
              CertificateStore.empty_cert_store) as (H1 & _ & H3 & _).
  split; [apply (H3 ca [x30; x82]); reflexivity|apply H1; reflexivity].
Defined.

(* --------------------------------------------------------------------- *)
(** ** Reloads under the readers-writer lock *)
(* --------------------------------------------------------------------- *)

Module SyncFacts.
Import RuleStore RuleStoreSync.

Definition holding_val (p : ReaderPc) : nat :=
  match p with
  | R_Holding => 1
  | _ => 0
  end.

(** Number of readers inside their read critical section. *)
Fixpoint count_holding (pcs : list ReaderPc) : nat :=
  match pcs with
  | [] => 0
  | p :: t => holding_val p + count_holding t
  end.

Lemma count_holding_insert (pcs : list ReaderPc) (i : nat) (x y : ReaderPc) :
  pcs !! i = Some x ->
  count_holding (<[i := y]> pcs) + holding_val x = count_holding pcs + holding_val y.
Proof.
  revert i. induction pcs as [|p t IH]; intros i Hi; [discriminate|].
  destruct i as [|j]; simpl in *.
  - injection Hi as ->. lia.
  - specialize (IH j Hi). lia.
Qed.

Lemma count_holding_replicate n : count_holding (replicate n R_Idle) = 0.
Proof. induction n; simpl; auto. Qed.

Lemma count_holding_pos (pcs : list ReaderPc) (i : nat) :
  pcs !! i = Some R_Holding -> 1 <= count_holding pcs.
Proof.
  revert i. induction pcs as [|p t IH]; intros i Hi; [discriminate|].
  destruct i as [|j]; simpl in *.
  - injection Hi as ->. simpl. lia.
  - specialize (IH j Hi). lia.
Qed.

(** The body of a reload only mutates the store. *)
Definition body_ok (body : list WriterInstr) : Prop :=
  Forall (fun i => i <> W_Acquire /\ i <> W_Release) body.

(** Where the writer is: before taking the lock (old store), inside the
    critical section after a prefix [b1] of the body, or done (new
    store). *)
Definition writer_phase (old : Store) (body : list WriterInstr) (st : SysState) : Prop :=
  (writer_pc st = [W_Acquire] ++ body ++ [W_Release] /\ sys_store st = old
   /\ writer_holds st = false)
  \/ (exists b1 b2, body = b1 ++ b2 /\ writer_pc st = b2 ++ [W_Release]
      /\ sys_store st = fold_left exec_winstr b1 old /\ writer_holds st = true)
  \/ (writer_pc st = [] /\ sys_store st = fold_left exec_winstr body old
      /\ writer_holds st = false).

Definition sys_inv (old : Store) (body : list WriterInstr) (st : SysState) : Prop :=
  writer_phase old body st
  /\ reader_count st = count_holding (reader_pcs st)
  /\ (writer_holds st = true -> reader_count st = 0)
  /\ (forall i snap, In (i, snap) (observed st) ->
        snap = old \/ snap = fold_left exec_winstr body old).

Lemma unlocked_store old body st :
  writer_phase old body st -> writer_holds st = false ->
  sys_store st = old \/ sys_store st = fold_left exec_winstr body old.
Proof.
  intros [(_ & Hs & _)|[(b1 & b2 & _ & _ & _ & Hh)|(_ & Hs & _)]] Hf; auto; congruence.
Qed.

Lemma writer_step_inv old body st :
  body_ok body -> sys_inv old body st -> sys_inv old body (writer_step st).
Proof.
  intros Hok (Hph & Hcnt & Hwr & Hobs).
  destruct Hph as [(Hpc & Hs & Hh)|[(b1 & b2 & Hb & Hpc & Hs & Hh)|(Hpc & Hs & Hh)]].
  - unfold writer_step. rewrite Hpc. simpl. rewrite Hh. simpl.
    destruct (Nat.eqb (reader_count st) 0) eqn:Hz; [|repeat split; auto; left; auto].
    apply Nat.eqb_eq in Hz.
    split; [|split; [|split]]; simpl; auto.
    right; left. exists [], body. simpl. auto.
  - unfold writer_step. rewrite Hpc.
    destruct b2 as [|i b2'].
    + simpl. unfold sys_inv, writer_phase. simpl.
      split; [|split; [|split]]; auto;
        [right; right; rewrite Hb, app_nil_r in *; auto].
    + assert (Hi : i <> W_Acquire /\ i <> W_Release).
      { rewrite Hb in Hok. apply Forall_app in Hok as [_ Hok].
        inversion Hok; subst. assumption. }
      destruct Hi as [Hia Hir].
      destruct i as [| c | f |]; try congruence.
      * unfold sys_inv, writer_phase. simpl.
        refine (conj _ (conj Hcnt (conj Hwr Hobs))).
        right; left. exists (b1 ++ [W_Flush c]), b2'.
        rewrite Hb, <- app_assoc, fold_left_app, Hs. auto.
      * unfold sys_inv, writer_phase. simpl.
        refine (conj _ (conj Hcnt (conj Hwr Hobs))).
        right; left. exists (b1 ++ [W_Add f]), b2'.
        rewrite Hb, <- app_assoc, fold_left_app, Hs. auto.
  - unfold writer_step. rewrite Hpc. repeat split; auto. right; right. auto.
Qed.

Lemma reader_step_inv old body i st :
  sys_inv old body st -> sys_inv old body (reader_step i st).
Proof.
  intros (Hph & Hcnt & Hwr & Hobs). unfold reader_step.
  destruct (reader_pcs st !! i) as [[| |]|] eqn:Ei;
    try (split; [|split; [|split]]; auto; fail).
  - destruct (writer_holds st) eqn:Hh; simpl; [split; auto|].
    pose proof (count_holding_insert _ _ _ R_Holding Ei) as Hc. simpl in Hc.
    split; [|split; [|split]]; simpl; auto.
    + unfold writer_phase in *. simpl in Hph |- *. rewrite Hh in Hph. exact Hph.
    + lia.
    + intros Hf. discriminate Hf.
  - pose proof (count_holding_insert _ _ _ R_Done Ei) as Hc. simpl in Hc.
    pose proof (count_holding_pos _ _ Ei) as Hpos.
    assert (Hh : writer_holds st = false).
    { destruct (writer_holds st) eqn:E; [|reflexivity]. specialize (Hwr eq_refl). lia. }
    split; [|split; [|split]]; simpl.
    + unfold writer_phase in *. simpl. exact Hph.
    + lia.
    + rewrite Hh. discriminate.
    + intros j snap Hin. apply in_app_or in Hin as [Hin|[Hin|[]]]; [eauto|].
      injection Hin as _ <-. apply (unlocked_store old body st Hph Hh).
Qed.

Lemma run_schedule_inv old body st sched :
  body_ok body -> sys_inv old body st -> sys_inv old body (run_schedule st sched).
Proof.
  intros Hok. unfold run_schedule. revert st.
  induction sched as [|t sched IH]; intros st Hst; simpl; [exact Hst|].
  apply IH. destruct t; simpl; [apply writer_step_inv|apply reader_step_inv]; auto.
Qed.

Lemma fold_exec_adds (fs : list Filter) (s : Store) :
  fold_left exec_winstr (map W_Add fs) s = fold_left add_filter fs s.
Proof. revert s. induction fs as [|f fs IH]; intros s; simpl; auto. Qed.

Lemma reload_body_ok listString c flush : body_ok (reload_body listString c flush).
Proof.
  unfold body_ok, reload_body.
  destruct (parse_lines c (split_on newline listString)) as [[fs l] e].
  apply Forall_app. split.
  - destruct flush; constructor; [split; discriminate|constructor].
  - induction fs as [|f fs IH]; simpl; constructor; [split; discriminate|exact IH].
Qed.

Lemma reload_body_result s0 listString c flush :
  fold_left exec_winstr (reload_body listString c flush) s0
  = fst (fst (LoadFilteringListFromString s0 listString c flush)).
Proof.
  unfold reload_body, LoadFilteringListFromString.
  destruct (parse_lines c (split_on newline listString)) as [[fs l] e].
  rewrite fold_left_app, fold_exec_adds. destruct flush; reflexivity.
Qed.

End SyncFacts.

(** C6: a reload of a category's rules is atomic for concurrent queries.
    For any number of readers and any interleaving of their steps with the
    writer's, every query observes either the complete store before the
    reload or the complete store after it, never an intermediate one; once
    the writer has finished, the store is the post-reload one. *)
Theorem reload_atomic (s0 : RuleStore.Store) (listString : string) (c : byte) (flush : bool)
    (n : nat) (sched : list RuleStoreSync.Thread) :
  let st := RuleStoreSync.run_schedule
              (RuleStoreSync.sys_init s0 (RuleStoreSync.reload_program listString c flush) n) sched in
  let after := fst (fst (RuleStore.LoadFilteringListFromString s0 listString c flush)) in
  (forall i snap, In (i, snap) (RuleStoreSync.observed st) -> snap = s0 \/ snap = after)
  /\ (RuleStoreSync.writer_pc st = [] -> RuleStoreSync.sys_store st = after).
Proof.
  intros st after.
  set (body := RuleStoreSync.reload_body listString c flush).
  assert (Hinit : SyncFacts.sys_inv s0 body
                    (RuleStoreSync.sys_init s0 (RuleStoreSync.reload_program listString c flush) n)).
  { unfold SyncFacts.sys_inv, SyncFacts.writer_phase, RuleStoreSync.sys_init. simpl.
    rewrite SyncFacts.count_holding_replicate.
    split; [|split; [reflexivity|split]].
    - left. auto.
    - intros Hf. discriminate Hf.
    - intros i snap []. }
  destruct (SyncFacts.run_schedule_inv _ _ _ sched
              (SyncFacts.reload_body_ok listString c flush) Hinit)
    as (Hph & _ & _ & Hobs).
  fold st in Hph, Hobs.
  assert (Hafter : fold_left RuleStoreSync.exec_winstr body s0 = after)
    by apply SyncFacts.reload_body_result.
  split.
  - intros i snap Hin. rewrite <- Hafter. exact (Hobs i snap Hin).
  - intros Hpc. rewrite <- Hafter.
    destruct Hph as [(Hpc' & _)|[(b1 & b2 & _ & Hpc' & _)|(_ & Hs & _)]].
    + rewrite Hpc in Hpc'. discriminate Hpc'.
    + rewrite Hpc in Hpc'. destruct b2; discriminate Hpc'.
    + exact Hs.
Qed.

Lemma reload_atomic_witness :
  let lst := RuleStore.join_with RuleStore.newline ["||a.example^"; "||b.example^"]%string in
  let st := RuleStoreSync.run_schedule
              (RuleStoreSync.sys_init RuleStore.empty_store (RuleStoreSync.reload_program lst x01 true) 1)
              [RuleStoreSync.Reader 0; RuleStoreSync.Writer; RuleStoreSync.Reader 0;
               RuleStoreSync.Writer; RuleStoreSync.Writer; RuleStoreSync.Writer;
               RuleStoreSync.Writer; RuleStoreSync.Writer] in
  RuleStoreSync.sys_store st
  = fst (fst (RuleStore.LoadFilteringListFromString RuleStore.empty_store lst x01 true)).
Proof.
  intros lst st.
  apply (proj2 (reload_atomic RuleStore.empty_store lst x01 true 1
                  [RuleStoreSync.Reader 0; RuleStoreSync.Writer; RuleStoreSync.Reader 0;
                   RuleStoreSync.Writer; RuleStoreSync.Writer; RuleStoreSync.Writer;
                   RuleStoreSync.Writer; RuleStoreSync.Writer])).
  vm_compute. reflexivity.
Defined.

(* ===================================================================== *)
(** * Further properties of the facade's operations *)
(* ===================================================================== *)

Module ExtraFacts.
Import RuleStore.

Lemma byte_eqb_refl (c : byte) : Byte.eqb c c = true.
Proof. apply Byte.byte_dec_lb. reflexivity. Qed.

Lemma byte_eqb_true (a b : byte) : Byte.eqb a b = true -> a = b.
Proof. apply Byte.byte_dec_bl. Qed.

(** Blank lines and lines starting with [!] are comments. *)
Lemma classify_comment (l : string) :
  is_blank l || String.prefix "!" l = true -> classify_line l = LC_Comment.
Proof.
  unfold classify_line. destruct (is_blank l) eqn:Eb; [reflexivity|].
  destruct l as [|a l]; [discriminate|].
  intros H. destruct (Ascii.ascii_dec "!"%char a) as [<-|Hne]; [reflexivity|].
  exfalso. revert H. cbn [String.prefix orb].
  destruct (Ascii.ascii_dec "!"%char a); [contradiction|discriminate].
Qed.

(** Every filter parsed for a category carries that category. *)
Lemma parse_line_category (c : byte) (l : string) (f : Filter) :
  parse_line c l = Parsed f -> filter_category f = c.
Proof.
  unfold parse_line. destruct (classify_line (strip_cr l)).
  - discriminate.
  - intros H. injection H as <-. reflexivity.
  - destruct (url_rule_parts (strip_cr l)) as [[allow pat] options].
    destruct (forallb known_option options); [|discriminate].
    intros H. injection H as <-. reflexivity.
Qed.

Lemma parse_lines_category (c : byte) (ls : list string) :
  Forall (fun f => filter_category f = c) (fst (fst (parse_lines c ls))).
Proof.
  induction ls as [|l ls IH]; simpl; [constructor|].
  destruct (parse_lines c ls) as [[fs loaded] failed] eqn:E. simpl in IH.
  destruct (parse_line c l) eqn:Ep; simpl; auto.
  constructor; [eapply parse_line_category; eauto|exact IH].
Qed.

Lemma parse_lines_counts (c : byte) (ls : list string) :
  let '(_, loaded, failed) := parse_lines c ls in loaded + failed <= length ls.
Proof.
  induction ls as [|l ls IH]; simpl; [lia|].
  destruct (parse_lines c ls) as [[fs loaded] failed].
  destruct (parse_line c l); simpl; lia.
Qed.

Lemma url_filters_category (c : byte) (fs : list Filter) :
  Forall (fun f => filter_category f = c) fs ->
  Forall (fun r => rule_category r = c) (url_filters fs).
Proof.
  induction fs as [|f fs IH]; intros H; simpl; [constructor|].
  inversion H as [|? ? Hf Hfs]; subst.
  destruct f; simpl in *; [constructor|]; auto.
Qed.

Lemma element_filters_category (c : byte) (fs : list Filter) :
  Forall (fun f => filter_category f = c) fs ->
  Forall (fun e => el_category e = c) (element_filters fs).
Proof.
  induction fs as [|f fs IH]; intros H; simpl; [constructor|].
  inversion H as [|? ? Hf Hfs]; subst.
  destruct f; simpl in *; [|constructor]; auto.
Qed.

Lemma filters_length (fs : list Filter) :
  length (url_filters fs) + length (element_filters fs) = length fs.
Proof. induction fs as [|[] fs IH]; simpl; lia. Qed.

(** A filter that drops every element of a list keeps nothing. *)
Lemma filter_all_dropped {A} (p : A -> bool) (l : list A) :
  Forall (fun x => p x = false) l -> List.filter p l = [].
Proof. induction 1 as [|x l Hx _ IH]; simpl; [reflexivity|]. rewrite Hx. exact IH. Qed.

Lemma filter_idem {A} (p : A -> bool) (l : list A) :
  List.filter p (List.filter p l) = List.filter p l.
Proof.
  induction l as [|x l IH]; simpl; [reflexivity|].
  destruct (p x) eqn:E; simpl; [rewrite E, IH|]; auto.
Qed.

(** Narrowing a list to a superset of the elements a predicate accepts
    changes neither [existsb] nor [filter] of that predicate. *)
Lemma existsb_filter_weaken {A} (f g : A -> bool) (l : list A) :
  (forall x, f x = true -> g x = true) -> existsb f (List.filter g l) = existsb f l.
Proof.
  intros Hfg. induction l as [|x l IH]; simpl; [reflexivity|].
  destruct (g x) eqn:Eg; simpl; rewrite IH; [reflexivity|].
  destruct (f x) eqn:Ef; [|reflexivity]. rewrite (Hfg x Ef) in Eg. discriminate.
Qed.

Lemma filter_filter_weaken {A} (f g : A -> bool) (l : list A) :
  (forall x, f x = true -> g x = true) -> List.filter f (List.filter g l) = List.filter f l.
Proof.
  intros Hfg. induction l as [|x l IH]; simpl; [reflexivity|].
  destruct (g x) eqn:Eg; simpl; rewrite IH; [reflexivity|].
  destruct (f x) eqn:Ef; [|reflexivity]. rewrite (Hfg x Ef) in Eg. discriminate.
Qed.

(** Unloading a category twice is unloading it once. *)
Lemma unload_idem (s : Store) (c : byte) :
  UnloadRulesForCategory (UnloadRulesForCategory s c) c = UnloadRulesForCategory s c.
Proof. unfold UnloadRulesForCategory; simpl. rewrite !filter_idem. reflexivity. Qed.

(** Unloading [c] after adding filters of category [c] to a store is
    unloading [c] from the store. *)
Lemma unload_after_add (s : Store) (c : byte) (fs : list Filter) :
  Forall (fun f => filter_category f = c) fs ->
  UnloadRulesForCategory (fold_left add_filter fs s) c = UnloadRulesForCategory s c.
Proof.
  intros Hfs. rewrite LoadFacts.fold_add_filters. unfold UnloadRulesForCategory; simpl.
  rewrite !List.filter_app.
  rewrite (filter_all_dropped _ (url_filters fs)),
          (filter_all_dropped _ (element_filters fs)), !app_nil_r; [reflexivity| |].
  - eapply Forall_impl; [apply element_filters_category; exact Hfs|].
    intros e He. simpl. rewrite He, byte_eqb_refl. reflexivity.
  - eapply Forall_impl; [apply url_filters_category; exact Hfs|].
    intros r Hr. simpl. rewrite Hr, byte_eqb_refl. reflexivity.
Qed.

(** No rule of category [c] is left after unloading [c], so no query
    reports a block in [c]. *)
Lemma unload_no_block (rule_matches : Rule -> string -> bool)
    (opts : ProgramWideOptions.ProgramWideOptions) (s : Store) (c : byte) (url : string) :
  query_url rule_matches opts (UnloadRulesForCategory s c) url <> Block c.
Proof.
  unfold query_url. destruct (existsb _ _); [discriminate|].
  destruct (lowest_category _) as [c0|] eqn:El; [|discriminate].
  intros Hc. injection Hc as ->.
  destruct (VerdictFacts.lowest_category_some _ _ El) as [[r [Hr Hrc]] _].
  apply filter_In in Hr as [Hr _]. simpl in Hr. apply filter_In in Hr as [_ Hneq].
  rewrite Hrc, byte_eqb_refl in Hneq. discriminate.
Qed.

(** The rules of a disabled category take no part in any verdict. *)
Lemma disabled_category_ignored (rule_matches : Rule -> string -> bool)
    (opts : ProgramWideOptions.ProgramWideOptions) (s : Store) (c : byte) (url : string) :
  ProgramWideOptions.GetCategoryEnabled opts c = false ->
  query_url rule_matches opts s url
  = query_url rule_matches opts (UnloadRulesForCategory s c) url.
Proof.
  intros Hoff.
  assert (Hlive : forall r, ProgramWideOptions.GetCategoryEnabled opts (rule_category r) = true ->
                            negb (Byte.eqb (rule_category r) c) = true).
  { intros r Hr. destruct (Byte.eqb (rule_category r) c) eqn:E; [|reflexivity].
    apply byte_eqb_true in E. rewrite E, Hoff in Hr. discriminate. }
  unfold query_url; simpl.
  rewrite existsb_filter_weaken, filter_filter_weaken; [reflexivity| |];
    intros r Hr; apply Hlive; rewrite !andb_true_iff in Hr; tauto.
Qed.

(** In a well-shaped options object, a category written with
    [SetCategoryEnabled] (other than zero) reads back its value. *)
Lemma set_category_get (num_options : nat) (o : ProgramWideOptions.ProgramWideOptions)
    (c : byte) (v : bool) :
  OptionsFacts.well_shaped num_options o -> c <> x00 ->
  ProgramWideOptions.GetCategoryEnabled (ProgramWideOptions.SetCategoryEnabled o c v) c = v.
Proof.
  intros (_ & Hlen & _) Hne.
  unfold ProgramWideOptions.GetCategoryEnabled, ProgramWideOptions.SetCategoryEnabled.
  rewrite OptionsFacts.byte_eqb_zero_false by exact Hne. simpl.
  rewrite list_lookup_insert_eq; [reflexivity|].
  rewrite Hlen. unfold ProgramWideOptions.NumCategories.
  pose proof (Byte.to_nat_bounded c). lia.
Qed.

End ExtraFacts.

Module EngineExtraFacts.
Import Engine.

(** A running engine is diverting and runs the configured number of
    worker threads; the thread count never changes. *)
Definition running_inv (n : nat) (s : EngineState) : Prop :=
  m_proxyNumThreads s = n
  /\ (m_isRunning s = true -> m_diverting s = true /\ length (m_proxyServiceThreads s) = n).

Lemma apply_op_running_inv bind n s op :
  running_inv n s -> running_inv n (apply_op bind s op).
Proof.
  intros [Hn Hr]. destruct op as [| |id]; simpl.
  - unfold Start. destruct (m_isRunning s) eqn:Er; [split; auto|].
    destruct (bind (m_httpListenerPort s)); [destruct (bind (m_httpsListenerPort s))|];
      unfold running_inv; simpl.
    + rewrite length_seq. auto.
    + split; [exact Hn|discriminate].
    + split; [exact Hn|discriminate].
  - unfold Stop. destruct (m_isRunning s) eqn:Er; [|split; auto; congruence].
    unfold running_inv, release_all; simpl. split; [exact Hn|discriminate].
  - unfold Accept. destruct (m_isRunning s) eqn:Er; [|split; auto; congruence].
    unfold running_inv; simpl. split; [exact Hn|]. intros _. apply Hr. reflexivity.
Qed.

Lemma run_ops_running_inv bind n s ops :
  running_inv n s -> running_inv n (run_ops bind s ops).
Proof.
  revert s. induction ops as [|op ops IH]; intros s Hs; simpl; [exact Hs|].
  apply IH. by apply apply_op_running_inv.
Qed.

End EngineExtraFacts.

(** X1: with [flushExistingInCategory = true], loading a list replaces
    the rules of its category: loading the same list a second time leaves
    the store as the first load left it and reports the same counts. *)
Theorem load_flush_twice_is_once (s : RuleStore.Store) (listString : string) (c : byte) :
  let '(s1, l1, f1) := RuleStore.LoadFilteringListFromString s listString c true in
  RuleStore.LoadFilteringListFromString s1 listString c true = (s1, l1, f1).
Proof.
  unfold RuleStore.LoadFilteringListFromString.
  pose proof (ExtraFacts.parse_lines_category c (RuleStore.split_on RuleStore.newline listString))
    as Hcat.
  destruct (RuleStore.parse_lines c _) as [[fs loaded] failed]. simpl in Hcat.
  rewrite ExtraFacts.unload_after_add, ExtraFacts.unload_idem by exact Hcat.
  reflexivity.
Qed.

(** X2: loading a list into category [c] touches no rule of any other
    category: unloading [c] afterwards gives the same store as unloading
    [c] from the store before the load, with or without the flush. *)
Theorem load_then_unload_category (s : RuleStore.Store) (listString : string) (c : byte)
    (flush : bool) :
  RuleStore.UnloadRulesForCategory
    (fst (fst (RuleStore.LoadFilteringListFromString s listString c flush))) c
  = RuleStore.UnloadRulesForCategory s c.
Proof.
  unfold RuleStore.LoadFilteringListFromString.
  pose proof (ExtraFacts.parse_lines_category c (RuleStore.split_on RuleStore.newline listString))
    as Hcat.
  destruct (RuleStore.parse_lines c _) as [[fs loaded] failed]. simpl in Hcat |- *.
  rewrite ExtraFacts.unload_after_add by exact Hcat.
  destruct flush; [apply ExtraFacts.unload_idem|reflexivity].
Qed.

(** X3: after [UnloadRulesForCategory(c)], no URL query is blocked in
    category [c], whatever the options and the URL. *)
Theorem unload_category_never_blocks (rule_matches : RuleStore.Rule -> string -> bool)
    (opts : ProgramWideOptions.ProgramWideOptions) (s : RuleStore.Store) (c : byte)
    (url : string) :
  RuleStore.query_url rule_matches opts (RuleStore.UnloadRulesForCategory s c) url
  <> RuleStore.Block c.
Proof. apply ExtraFacts.unload_no_block. Qed.

(** X4: category zero never filters: with any options state reachable
    through the setters, rules loaded into category 0 take no part in a
    verdict (the verdict is the one of the store without them), and no
    query is blocked in category 0. *)
Theorem category_zero_never_filters (rule_matches : RuleStore.Rule -> string -> bool)
    (num_options : nat) (ops : list ProgramWideOptions.OptionsOp) (s : RuleStore.Store)
    (url : string) :
  let o := ProgramWideOptions.run_ops num_options ops in
  RuleStore.query_url rule_matches o s url
  = RuleStore.query_url rule_matches o (RuleStore.UnloadRulesForCategory s x00) url
  /\ RuleStore.query_url rule_matches o s url <> RuleStore.Block x00.
Proof.
  intros o.
  assert (H0 : ProgramWideOptions.GetCategoryEnabled o x00 = false).
  { destruct (OptionsFacts.run_ops_well_shaped num_options ops) as (_ & _ & H0).
    unfold ProgramWideOptions.GetCategoryEnabled. fold o in H0.
    change (Byte.to_nat x00) with 0. rewrite H0. reflexivity. }
  rewrite <- ExtraFacts.disabled_category_ignored by exact H0.
  split; [reflexivity|].
  rewrite ExtraFacts.disabled_category_ignored with (c := x00) by exact H0.
  apply ExtraFacts.unload_no_block.
Qed.

(** X5: disabling a category takes effect at once: after
    [SetCategoryEnabled(c, false)] on any reachable options state, the
    rules of category [c] take no part in a verdict and no query is blocked
    in category [c]. *)
Theorem disabled_category_has_no_effect (rule_matches : RuleStore.Rule -> string -> bool)
    (num_options : nat) (ops : list ProgramWideOptions.OptionsOp) (c : byte)
    (s : RuleStore.Store) (url : string) :
  let o := ProgramWideOptions.SetCategoryEnabled (ProgramWideOptions.run_ops num_options ops) c false in
  RuleStore.query_url rule_matches o s url
  = RuleStore.query_url rule_matches o (RuleStore.UnloadRulesForCategory s c) url
  /\ RuleStore.query_url rule_matches o s url <> RuleStore.Block c.
Proof.
  intros o.
  pose proof (OptionsFacts.run_ops_well_shaped num_options ops) as Hws.
  assert (Hoff : ProgramWideOptions.GetCategoryEnabled o c = false).
  { destruct (Byte.byte_eq_dec c x00) as [->|Hne].
    - destruct Hws as (_ & _ & H0). unfold o, ProgramWideOptions.SetCategoryEnabled. simpl.
      unfold ProgramWideOptions.GetCategoryEnabled.
      change (Byte.to_nat x00) with 0. rewrite H0. reflexivity.
    - apply (ExtraFacts.set_category_get num_options); assumption. }
  rewrite <- ExtraFacts.disabled_category_ignored by exact Hoff.
  split; [reflexivity|].
  rewrite ExtraFacts.disabled_category_ignored with (c := c) by exact Hoff.
  apply ExtraFacts.unload_no_block.
Qed.

(** X6: the setters are independent: [SetOptionEnabled(i, v)] changes no
    other option and no category, and [SetCategoryEnabled(c, v)] changes no
    other category and no option. *)
Theorem setters_independent (o : ProgramWideOptions.ProgramWideOptions) (i j : N) (c d : byte)
    (v : bool) :
  (j <> i -> ProgramWideOptions.GetOptionEnabled (ProgramWideOptions.SetOptionEnabled o i v) j
             = ProgramWideOptions.GetOptionEnabled o j)
  /\ ProgramWideOptions.GetCategoryEnabled (ProgramWideOptions.SetOptionEnabled o i v) d
     = ProgramWideOptions.GetCategoryEnabled o d
  /\ (d <> c -> ProgramWideOptions.GetCategoryEnabled (ProgramWideOptions.SetCategoryEnabled o c v) d
                = ProgramWideOptions.GetCategoryEnabled o d)
  /\ ProgramWideOptions.GetOptionEnabled (ProgramWideOptions.SetCategoryEnabled o c v) j
     = ProgramWideOptions.GetOptionEnabled o j.
Proof.
  unfold ProgramWideOptions.GetOptionEnabled, ProgramWideOptions.SetOptionEnabled,
    ProgramWideOptions.GetCategoryEnabled, ProgramWideOptions.SetCategoryEnabled.
  split; [|split; [|split]].
  - intros Hji.
    assert (Hn : N.to_nat i <> N.to_nat j) by (intros E; apply Hji; symmetry; apply N2Nat.inj; exact E).
    destruct (decide (N.to_nat i < length (ProgramWideOptions.m_options o))); [|reflexivity].
    simpl. rewrite length_insert. rewrite list_lookup_insert_ne by exact Hn. reflexivity.
  - destruct (decide (N.to_nat i < length (ProgramWideOptions.m_options o))); reflexivity.
  - intros Hdc. destruct (Byte.eqb c x00); [reflexivity|]. simpl.
    rewrite list_lookup_insert_ne; [reflexivity|].
    intros E. apply Hdc. symmetry. apply VerdictFacts.byte_to_nat_inj. exact E.
  - destruct (Byte.eqb c x00); reflexivity.
Qed.

Lemma setters_independent_witness :
  let o := ProgramWideOptions.run_ops 32 [ProgramWideOptions.SetOption 4%N true] in
  ProgramWideOptions.GetOptionEnabled (ProgramWideOptions.SetOptionEnabled o 3%N false) 4%N
  = ProgramWideOptions.GetOptionEnabled o 4%N
  /\ ProgramWideOptions.GetCategoryEnabled (ProgramWideOptions.SetCategoryEnabled o x05 true) x06
     = ProgramWideOptions.GetCategoryEnabled o x06.
Proof.
  intros o. split.
  - apply (proj1 (setters_independent o 3%N 4%N x05 x06 false)). discriminate.
  - apply (proj1 (proj2 (proj2 (setters_independent o 3%N 4%N x05 x06 true)))). discriminate.
Defined.

(** X7: on every engine reachable from construction, [IsRunning()] is true
    exactly when the engine is diverting traffic; a running engine holds
    both acceptors and the configured number of worker threads. *)
Theorem running_means_diverting_and_listening (bind : Engine.BindFunction)
    (httpPort httpsPort : N) (numThreads : nat) (ops : list Engine.EngineOp) :
  let s := Engine.run_ops bind (Engine.construct httpPort httpsPort numThreads) ops in
  Engine.IsRunning s = Engine.m_diverting s
  /\ (Engine.IsRunning s = true ->
      (exists hp, Engine.m_httpAcceptor s = Some hp)
      /\ (exists sp, Engine.m_httpsAcceptor s = Some sp)
      /\ length (Engine.m_proxyServiceThreads s) = numThreads).
Proof.
  intros s.
  assert (Hinv : EngineFacts.engine_inv bind s)
    by apply EngineFacts.run_ops_engine_inv, EngineFacts.construct_inv.
  assert (Hrun : EngineExtraFacts.running_inv numThreads s).
  { apply EngineExtraFacts.run_ops_running_inv. split; [reflexivity|discriminate]. }
  destruct Hinv as [Hstop Hacc]. destruct Hrun as [_ Hrun].
  unfold Engine.IsRunning. split.
  - destruct (Engine.m_isRunning s) eqn:Er.
    + symmetry. apply Hrun. reflexivity.
    + destruct (Hstop eq_refl) as (_ & _ & _ & _ & Hd & _). symmetry. exact Hd.
  - intros Er. destruct (Hacc Er) as (hp & sp & _ & _ & H1 & H2).
    split; [eauto|split; [eauto|]]. apply Hrun. exact Er.
Qed.

Lemma running_means_diverting_and_listening_witness :
  let bind := fun p : N => Some (if N.eqb p 0 then 49152%N else p) in
  let s := Engine.run_ops bind (Engine.construct 0 443 4) [Engine.OpStart] in
  Engine.IsRunning s = true /\ length (Engine.m_proxyServiceThreads s) = 4.
Proof.
  intros bind s.
  assert (Hr : Engine.IsRunning s = true) by (vm_compute; reflexivity).
  split; [exact Hr|].
  exact (proj2 (proj2 (proj2 (running_means_diverting_and_listening bind 0 443 4
                                [Engine.OpStart]) Hr))).
Defined.

(** X8: an engine can be restarted: on every engine reachable from
    construction, [Stop()] followed by [Start()] leaves it running, with no
    session from before the stop, and listening on the ports the operating
    system binds for the configured ports, when both binds succeed. *)
Theorem stop_then_start_restarts (bind : Engine.BindFunction) (httpPort httpsPort : N)
    (numThreads : nat) (ops : list Engine.EngineOp) (hp sp : N) :
  bind httpPort = Some hp -> bind httpsPort = Some sp ->
  let s := Engine.run_ops bind (Engine.construct httpPort httpsPort numThreads) ops in
  let s' := fst (Engine.Start bind (Engine.Stop s)) in
  Engine.IsRunning s' = true /\ Engine.GetHttpListenerPort s' = hp
  /\ Engine.GetHttpsListenerPort s' = sp /\ Engine.m_sessions s' = [].
Proof.
  intros Hb1 Hb2 s s'.
  assert (Hinv : EngineFacts.engine_inv bind s)
    by apply EngineFacts.run_ops_engine_inv, EngineFacts.construct_inv.
  destruct Hinv as [Hstop _].
  destruct (EngineFacts.run_ops_config bind (Engine.construct httpPort httpsPort numThreads) ops)
    as [Hc1 Hc2].
  fold s in Hc1, Hc2. simpl in Hc1, Hc2.
  assert (Hst : Engine.m_isRunning (Engine.Stop s) = false
                /\ Engine.m_httpListenerPort (Engine.Stop s) = httpPort
                /\ Engine.m_httpsListenerPort (Engine.Stop s) = httpsPort).
  { unfold Engine.Stop. destruct (Engine.m_isRunning s) eqn:Er; simpl; auto. }
  destruct Hst as (Hr & Hp1 & Hp2).
  unfold s', Engine.Start. rewrite Hr, Hp1, Hp2, Hb1, Hb2.
  unfold Engine.IsRunning, Engine.GetHttpListenerPort, Engine.GetHttpsListenerPort. simpl.
  auto.
Qed.

Lemma stop_then_start_restarts_witness :
  let bind := fun p : N => Some (if N.eqb p 0 then 49152%N else p) in
  let s := Engine.run_ops bind (Engine.construct 0 443 4) [Engine.OpStart; Engine.OpAccept 7] in
  Engine.GetHttpsListenerPort (fst (Engine.Start bind (Engine.Stop s))) = 443%N
  /\ Engine.m_sessions (fst (Engine.Start bind (Engine.Stop s))) = [].
Proof.
  intros bind s.
  destruct (stop_then_start_restarts bind 0 443 4 [Engine.OpStart; Engine.OpAccept 7] 49152 443
              eq_refl eq_refl) as (_ & _ & H3 & H4).
  split; [exact H3|exact H4].
Defined.

(** X9: the reader/writer lock of the rule store excludes readers while the
    writer reloads: in every interleaving of a reload with queries, when
    the writer holds the lock no reader is inside its read section, and the
    lock's reader count is the number of readers inside it. *)
Theorem rw_lock_exclusion (s0 : RuleStore.Store) (listString : string) (c : byte) (flush : bool)
    (n : nat) (sched : list RuleStoreSync.Thread) :
  let st := RuleStoreSync.run_schedule
              (RuleStoreSync.sys_init s0 (RuleStoreSync.reload_program listString c flush) n) sched in
  (RuleStoreSync.writer_holds st = true ->
   forall i, RuleStoreSync.reader_pcs st !! i <> Some RuleStoreSync.R_Holding)
  /\ RuleStoreSync.reader_count st = SyncFacts.count_holding (RuleStoreSync.reader_pcs st).
Proof.
  intros st.
  set (body := RuleStoreSync.reload_body listString c flush).
  assert (Hinit : SyncFacts.sys_inv s0 body
                    (RuleStoreSync.sys_init s0 (RuleStoreSync.reload_program listString c flush) n)).
  { unfold SyncFacts.sys_inv, SyncFacts.writer_phase, RuleStoreSync.sys_init. simpl.
    rewrite SyncFacts.count_holding_replicate.
    split; [|split; [reflexivity|split]].
    - left. auto.
    - intros Hf. discriminate Hf.
    - intros i snap []. }
  destruct (SyncFacts.run_schedule_inv _ _ _ sched
              (SyncFacts.reload_body_ok listString c flush) Hinit)
    as (_ & Hcnt & Hwr & _).
  fold st in Hcnt, Hwr. split; [|exact Hcnt].
  intros Hh i Hi. pose proof (SyncFacts.count_holding_pos _ _ Hi). specialize (Hwr Hh). lia.
Qed.

Lemma rw_lock_exclusion_witness :
  let lst := RuleStore.join_with RuleStore.newline ["||a.example^"; "||b.example^"]%string in
  let st := RuleStoreSync.run_schedule
              (RuleStoreSync.sys_init RuleStore.empty_store (RuleStoreSync.reload_program lst x01 true) 2)
              [RuleStoreSync.Writer; RuleStoreSync.Reader 0; RuleStoreSync.Writer] in
  RuleStoreSync.writer_holds st = true
  /\ RuleStoreSync.reader_pcs st !! 0 <> Some RuleStoreSync.R_Holding.
Proof.
  intros lst st.
  assert (Hh : RuleStoreSync.writer_holds st = true) by (vm_compute; reflexivity).
  split; [exact Hh|].
  exact (proj1 (rw_lock_exclusion RuleStore.empty_store lst x01 true 2
                  [RuleStoreSync.Writer; RuleStoreSync.Reader 0; RuleStoreSync.Writer]) Hh 0).
Defined.

(** X10: [rulesLoaded] is the number of rules the load adds to the store
    (after the optional flush of the category), and [rulesLoaded] plus
    [rulesFailed] never exceeds the number of lines of the list. *)
Theorem load_counts_match_store (s : RuleStore.Store) (listString : string) (c : byte)
    (flush : bool) :
  let base := if flush then RuleStore.UnloadRulesForCategory s c else s in
  let '(s', loaded, failed) := RuleStore.LoadFilteringListFromString s listString c flush in
  length (RuleStore.url_rules s') + length (RuleStore.element_rules s')
  = length (RuleStore.url_rules base) + length (RuleStore.element_rules base) + loaded
  /\ loaded + failed <= length (RuleStore.split_on RuleStore.newline listString).
Proof.
  intros base. unfold RuleStore.LoadFilteringListFromString. fold base.
  pose proof (LoadFacts.parse_lines_loaded c (RuleStore.split_on RuleStore.newline listString))
    as Hl.
  pose proof (ExtraFacts.parse_lines_counts c (RuleStore.split_on RuleStore.newline listString))
    as Hc.
  destruct (RuleStore.parse_lines c _) as [[fs loaded] failed].
  rewrite LoadFacts.fold_add_filters. simpl. rewrite !length_app.
  pose proof (ExtraFacts.filters_length fs). split; lia.
Qed.

(** X11: a list made only of blank lines (empty, or spaces and tabs) and
    [!] comments, the empty string included, loads nothing and fails
    nothing; it leaves the store as it was, or with the category flushed
    when the flush is asked. *)
Theorem load_comment_only_list (s : RuleStore.Store) (listString : string) (c : byte)
    (flush : bool) :
  forallb (fun l => RuleStore.is_blank (RuleStore.strip_cr l)
                    || String.prefix "!" (RuleStore.strip_cr l))
    (RuleStore.split_on RuleStore.newline listString) = true ->
  RuleStore.LoadFilteringListFromString s listString c flush
  = ((if flush then RuleStore.UnloadRulesForCategory s c else s), 0, 0).
Proof.
  intros Hall. unfold RuleStore.LoadFilteringListFromString.
  assert (Hp : forall ls, forallb (fun l => RuleStore.is_blank (RuleStore.strip_cr l)
                                            || String.prefix "!" (RuleStore.strip_cr l)) ls = true ->
                          RuleStore.parse_lines c ls = ([], 0, 0)).
  { induction ls as [|l ls IH]; simpl; intros H; [reflexivity|].
    apply andb_true_iff in H as [Hl Hls]. rewrite (IH Hls).
    unfold RuleStore.parse_line.
    rewrite (ExtraFacts.classify_comment _ Hl). reflexivity. }
  rewrite (Hp _ Hall). reflexivity.
Qed.

Lemma load_comment_only_list_witness :
  RuleStore.LoadFilteringListFromString RuleStore.empty_store
    (RuleStore.join_with RuleStore.newline
       ["! Title: test list"; ""; "   "; String RuleStore.tab "";
        String "!"%char (String RuleStore.carriage_return "")]%string)
    x02 true
  = (RuleStore.UnloadRulesForCategory RuleStore.empty_store x02, 0, 0).
Proof.
  apply (load_comment_only_list RuleStore.empty_store _ x02 true).
  vm_compute. reflexivity.
Defined.
